(** * Sticky headings: the heading-stack resolution of obsidian-sticky-headings

    A shallow embedding of [src/utils/getShownHeadings.ts],
    [src/utils/makeExpectedHeadings.ts] and of the pure part of
    [Plugin.renderHeadings] / [StickyHeadingsSetting.display] in
    [src/Plugin.ts], followed by the properties of the specification that
    concern them.  The embedding also covers the loop of [renderHeadings]
    over the headings it shows, with its cache of rendered texts, and the
    handlers that keep [fileResolveMap]; further properties of the code
    come last.

    Conventions.  JavaScript numbers that hold a heading level, a line
    number, a document offset, a pixel height or the [max] setting are
    integers of [Z]; [NaN] and [undefined] are written as [None] where the
    code can meet them.  An array is a [list]; [push] appends at the end.
    The recursion of [trivial] is not structural and does not terminate on
    every array, so it is run with a fuel that bounds the depth of the call
    stack. *)

From Stdlib Require Import ZArith Lia Ascii String.
From stdpp Require Import base tactics option list sorting strings pretty gmap.

Set Default Proof Using "Type".

(** ** JavaScript array primitives used by the sources *)

Module JS.

Section Arrays.
Context {A : Type}.

(** [Array.prototype.reduce] with the index handed to the callback. *)
Fixpoint reduce_from {B : Type} (f : B → A → nat → B)
    (index : nat) (arr : list A) (res : B) : B :=
  match arr with
  | [] => res
  | cur :: rest => reduce_from f (S index) rest (f res cur index)
  end.

Definition reduce {B : Type} (f : B → A → nat → B) (arr : list A) (init : B) : B :=
  reduce_from f 0 arr init.

(** A default value in a destructuring pattern, as in [{ top = 0 }]. *)
Definition with_default (d : A) (x : option A) : A :=
  match x with Some v => v | None => d end.

(** [arr.push(x)]. *)
Definition push (arr : list A) (x : A) : list A := arr ++ [x].

(** The clamping of a relative index done by [slice]: a negative [k]
    counts from the end, and the result stays within [0, len]. *)
Definition relative_index (len : nat) (k : Z) : nat :=
  if (k <? 0)%Z then Z.to_nat (Z.max (Z.of_nat len + k) 0)
  else Z.to_nat (Z.min k (Z.of_nat len)).

(** [arr.slice(start)], and [arr.slice(NaN)] which is [arr.slice(0)]. *)
Definition slice_from (arr : list A) (start : option Z) : list A :=
  match start with
  | Some k => drop (relative_index (length arr) k) arr
  | None => arr
  end.

(** [arr.filter(f)]. *)
Fixpoint filter (f : A → bool) (arr : list A) : list A :=
  match arr with
  | [] => []
  | x :: rest => if f x then x :: filter f rest else filter f rest
  end.

(** [arr.slice(start, end)]. *)
Definition slice (arr : list A) (start end_ : Z) : list A :=
  let from := relative_index (length arr) start in
  let to := relative_index (length arr) end_ in
  take (to - from) (drop from arr).
End Arrays.

End JS.

(** ** JavaScript [Map] and [Set] with strings as keys

    Entries are kept in the order of their insertion, as the iteration of
    a [Map] visits them. *)

Module JSMap.

Section Ops.
Context {V : Type}.
Implicit Types (m : list (string * V)) (k : string).

(** [m.get(k)]. *)
Fixpoint get m k : option V :=
  match m with
  | [] => None
  | (k', v) :: m => if decide (k = k') then Some v else get m k
  end.

(** [m.has(k)]. *)
Definition has m k : bool :=
  match get m k with Some _ => true | None => false end.

(** [m.set(k, v)]: the value of an entry is replaced where the entry is, a
    new entry comes last. *)
Fixpoint set m k (v : V) : list (string * V) :=
  match m with
  | [] => [(k, v)]
  | (k', v') :: m => if decide (k = k') then (k, v) :: m else (k', v') :: set m k v
  end.

(** [m.delete(k)]. *)
Definition delete m k : list (string * V) := filter (λ entry, entry.1 ≠ k) m.

(** [Array.from(m.keys())]. *)
Definition keys m : list string := m.*1.

(** [m.forEach] with a callback that assigns to fields of the values. *)
Definition update (f : string → V → V) m : list (string * V) :=
  (λ entry, (entry.1, f entry.1 entry.2)) <$> m.
End Ops.

(** [s.has(k)] and [s.add(k)] on a [Set] of strings. *)
Definition set_has (s : list string) (k : string) : bool := bool_decide (k ∈ s).
Definition set_add (s : list string) (k : string) : list string :=
  if set_has s k then s else s ++ [k].

End JSMap.

(** ** Data model *)

(** [Loc], [Pos] and [HeadingCache] of the host's typings. *)
Record Loc := { line : Z; col : Z; offset : Z }.
Record Pos := { start : Loc; end_ : Loc }.

Record Heading := {
  heading : string;
  level : Z;
  position : Pos;
}.

(** The setting ['default' | 'concise']. *)
Inductive Mode := default | concise.

(** [trivial] works by pushing onto the array [result] of its caller (the
    value it returns is that array on an empty [subHeadings] and
    [undefined] otherwise).  A call either returns, with [result] as it
    then is, or exhausts the call stack, leaving in [result] what was
    pushed so far. *)
Inductive Run := Returned (result : list Heading) | Overflow (result : list Heading).

Definition pushed (r : Run) : list Heading :=
  match r with Returned result | Overflow result => result end.

(** ** [trivial] (getShownHeadings.ts) *)

Definition topLevel (subHeadings : list Heading) : Z :=
  JS.reduce (λ res cur _, Z.min res (level cur)) subHeadings 6%Z.

Definition indexesOfTopLevel (subHeadings : list Heading) : list nat :=
  JS.reduce
    (λ indexes cur index,
       if (level cur =? topLevel subHeadings)%Z then JS.push indexes index else indexes)
    subHeadings [].

(** [result.push(subHeadings[index])].  Every index the code reads comes
    from [indexesOfTopLevel], hence is a position of [subHeadings]
    (lemma [indexesOfTopLevel_lookup] below). *)
Definition push_at (subHeadings result : list Heading) (index : nat) : list Heading :=
  match subHeadings !! index with
  | Some h => JS.push result h
  | None => result
  end.

(** The array passed to the recursive call:
    [subHeadings.slice(indexesOfTopLevel[indexesOfTopLevel.length - 1] + 1)];
    on an empty [indexesOfTopLevel] the index is [undefined + 1 = NaN]. *)
Definition remainder (subHeadings : list Heading) : list Heading :=
  JS.slice_from subHeadings
    ((λ i, Z.of_nat i + 1)%Z <$> last (indexesOfTopLevel subHeadings)).

Definition emit (subHeadings result : list Heading) (mode : Mode) : list Heading :=
  match mode with
  | concise =>
      match last (indexesOfTopLevel subHeadings) with
      | Some index => push_at subHeadings result index
      | None => result
      end
  | default =>
      foldl (push_at subHeadings) result (indexesOfTopLevel subHeadings)
  end.

Fixpoint trivial (fuel : nat) (subHeadings result : list Heading) (mode : Mode) : Run :=
  match fuel with
  | O => Overflow result
  | S fuel =>
      match subHeadings with
      | [] => Returned result
      | _ :: _ =>
          trivial fuel (remainder subHeadings) (emit subHeadings result mode) mode
      end
  end.

(** The headings a call appends to an empty [result], with a stack deep
    enough for every array on which the recursion ends. *)
Definition collapse (subHeadings : list Heading) (mode : Mode) : list Heading :=
  pushed (trivial (S (length subHeadings)) subHeadings [] mode).

(** ** [makeExpectedHeadings] (makeExpectedHeadings.ts) *)

(** A number used as a condition: [0] (and [NaN]) are falsy. *)
Definition truthy (n : Z) : bool := negb (n =? 0)%Z.

(** The function returned for [headings], [max] and [mode], applied to
    [index].  The statement [result.slice(-max);] computes an array and
    drops it: [slice] does not change [result]. *)
Definition makeExpectedHeadings (headings : list Heading) (max : Z) (mode : Mode)
    (fuel : nat) (index : Z) : Run :=
  let subHeadings := JS.slice headings 0 index in
  match trivial fuel subHeadings [] mode with
  | Returned result =>
      let dropped :=
        if truthy max then JS.slice_from result (Some (- max)%Z) else result in
      Returned result
  | Overflow result => Overflow result
  end.

(** ** The settings and [renderHeadings] (Plugin.ts) *)

(** The fields of [ISetting] that the resolution of the stack reads. *)
Record ISetting := { mode : Mode; max : Z }.

(** [parseInt(value, 10)] on a string of ASCII characters: white space is
    skipped, then an optional sign is read, then decimal digits up to the
    first other character; [None] is [NaN], returned when there is no
    digit. *)
Definition is_white_space (c : ascii) : bool :=
  let n := nat_of_ascii c in
  (n =? 32) || ((9 <=? n) && (n <=? 13)).

Fixpoint trim_start (s : string) : string :=
  match s with
  | String c rest => if is_white_space c then trim_start rest else s
  | EmptyString => s
  end.

Definition digit_value (c : ascii) : option Z :=
  let n := nat_of_ascii c in
  if (48 <=? n) && (n <=? 57) then Some (Z.of_nat (n - 48)) else None.

Fixpoint digits_prefix (s : string) (acc : option Z) : option Z :=
  match s with
  | String c rest =>
      match digit_value c with
      | Some d => digits_prefix rest (Some (10 * JS.with_default 0 acc + d)%Z)
      | None => acc
      end
  | EmptyString => acc
  end.

Definition parseInt10 (value : string) : option Z :=
  let s := trim_start value in
  let '(sign, digits) :=
    match s with
    | String "-" rest => ((-1)%Z, rest)
    | String "+" rest => (1%Z, rest)
    | _ => (1%Z, s)
    end in
  (λ n, sign * n)%Z <$> digits_prefix digits None.

(** [x || 0] for a number [x] that may be [NaN]. *)
Definition or_zero (x : option Z) : Z :=
  match x with
  | Some n => if truthy n then n else 0%Z
  | None => 0%Z
  end.

(** The settings after the callback [text.onChange] of the field for [max]
    has run on [value]. *)
Definition onChange_max (settings : ISetting) (value : string) : ISetting :=
  {| mode := mode settings; max := or_zero (parseInt10 value) |}.

(** [headings.filter(heading => heading.position.end.line + 1 <= scrollTop)]. *)
Definition validHeadings (headings : list Heading) (scrollTop : Z) : list Heading :=
  JS.filter (λ heading, (line (end_ (position heading)) + 1 <=? scrollTop)%Z) headings.

(** [if (max) finalHeadings = finalHeadings.slice(-max)]. *)
Definition truncate (max : Z) (finalHeadings : list Heading) : list Heading :=
  if truthy max then JS.slice_from finalHeadings (Some (- max)%Z) else finalHeadings.

(** The array [finalHeadings] that [renderHeadings] goes on to draw. *)
Definition finalHeadings (settings : ISetting) (fuel : nat)
    (headings : list Heading) (scrollTop : Z) : Run :=
  let run :=
    match validHeadings headings scrollTop with
    | [] => Returned []
    | valid => trivial fuel valid [] (mode settings)
    end in
  match run with
  | Returned final => Returned (truncate (max settings) final)
  | Overflow final => Overflow final
  end.

(** [Number.MAX_SAFE_INTEGER]: up to it in absolute value a JavaScript
    number holds an integer exactly. *)
Definition MAX_SAFE_INTEGER : Z := (2 ^ 53 - 1)%Z.

(** [this.plugin.settings.max.toString()], the text that [display] puts in
    the field of [max]: the decimal numeral of a safe integer.  Beyond
    [MAX_SAFE_INTEGER] the text is not modelled ([None]): the number is no
    longer every integer, and from [1e21] on the text is in exponent
    notation. *)
Definition toString (n : Z) : option string :=
  if (Z.abs n <=? MAX_SAFE_INTEGER)%Z then Some (pretty n) else None.

(** ** The loop of [renderHeadings] over [finalHeadings] (Plugin.ts) *)

(** [parseMarkdown] is imported from [./utils], which is not modelled, and
    awaited heading by heading; it stands here as a function of the text
    of the heading.  The state of one run of the loop is [markdownCache],
    the [(level, text)] of the items appended to the container so far, and
    the texts handed to [parseMarkdown] so far. *)
Record Drawn := {
  markdownCache : gmap string string;
  items : list (Z * string);
  parsed : list string;
}.

Section Draw.
Variable parseMarkdown : string → string.

Definition draw_heading (st : Drawn) (h : Heading) : Drawn :=
  let cacheKey := heading h in
  match markdownCache st !! cacheKey with
  | Some parsedText =>
      {| markdownCache := markdownCache st;
         items := JS.push (items st) (level h, parsedText);
         parsed := parsed st |}
  | None =>
      let parsedText := parseMarkdown (heading h) in
      {| markdownCache := <[cacheKey := parsedText]> (markdownCache st);
         items := JS.push (items st) (level h, parsedText);
         parsed := JS.push (parsed st) (heading h) |}
  end.

(** One run of the loop, from the cache [cache] and an emptied container. *)
Definition draw (cache : gmap string string) (finalHeadings : list Heading) : Drawn :=
  foldl draw_heading {| markdownCache := cache; items := []; parsed := [] |}
    finalHeadings.
End Draw.

(** ** The open views: [fileResolveMap] and its handlers (Plugin.ts) *)

(** A [TFile] as far as the handlers read it. *)
Record TFile := { path : string }.

(** An entry of [fileResolveMap].  The view and its container are objects
    compared by identity; a number stands for each. *)
Module Item.
Record t := { resolve : bool; file : TFile; view : nat; container : nat }.
End Item.

(** A leaf of the workspace as [iterateAllLeaves] hands it over: its [id],
    empty when the leaf has none, and, when [leaf.view] is a
    [MarkdownView], the view with the result of [getFile()] and its
    [contentEl]. *)
Record LeafView := { getFile : option TFile; contentEl : nat; view_object : nat }.
Module Leaf.
Record t := { id : string; view : option LeafView }.
End Leaf.

Section Lifecycle.
(** [isMarkdownFile] is imported from [./utils], which is not modelled. *)
Variable isMarkdownFile : TFile → bool.

(** The callback of [iterateAllLeaves] in [checkFileResolveMap]; the state
    is [(validIds, fileResolveMap)]. *)
Definition check_leaf (st : list string * list (string * Item.t)) (leaf : Leaf.t)
    : list string * list (string * Item.t) :=
  let '(validIds, fileResolveMap) := st in
  match Leaf.id leaf, Leaf.view leaf with
  | String _ _, Some leaf_view =>
      let validIds := JSMap.set_add validIds (Leaf.id leaf) in
      if JSMap.has fileResolveMap (Leaf.id leaf) then (validIds, fileResolveMap)
      else
        match getFile leaf_view with
        | Some file =>
            (validIds,
             JSMap.set fileResolveMap (Leaf.id leaf)
               {| Item.resolve := true; Item.file := file;
                  Item.container := contentEl leaf_view;
                  Item.view := view_object leaf_view |})
        | None => (validIds, fileResolveMap)
        end
  | _, _ => st
  end.

Definition checkFileResolveMap (fileResolveMap : list (string * Item.t))
    (leaves : list Leaf.t) : list (string * Item.t) :=
  let '(validIds, fileResolveMap) := foldl check_leaf ([], fileResolveMap) leaves in
  foldl (λ m id, if JSMap.set_has validIds id then m else JSMap.delete m id)
    fileResolveMap (JSMap.keys fileResolveMap).

(** The handler of [editor-change], on [info.file]. *)
Definition on_editor_change (fileResolveMap : list (string * Item.t))
    (file : option TFile) : list (string * Item.t) :=
  match file with
  | Some file =>
      if isMarkdownFile file then
        JSMap.update
          (λ _ item,
             if decide (path (Item.file item) = path file)
             then {| Item.resolve := false; Item.file := Item.file item;
                     Item.view := Item.view item;
                     Item.container := Item.container item |}
             else item)
          fileResolveMap
      else fileResolveMap
  | None => fileResolveMap
  end.

(** The handler of [resolve] of the metadata cache: the map it leaves and
    the ids it passes to [updateHeadings] (none when [ids] is empty). *)
Definition on_resolve (fileResolveMap : list (string * Item.t)) (file : TFile)
    : list (string * Item.t) * list string :=
  if isMarkdownFile file then
    let waiting (item : Item.t) : bool :=
      bool_decide (path (Item.file item) = path file) && negb (Item.resolve item) in
    let ids :=
      foldl (λ ids entry, if waiting entry.2 then JS.push ids entry.1 else ids)
        [] fileResolveMap in
    (JSMap.update
       (λ _ item,
          if waiting item
          then {| Item.resolve := true; Item.file := Item.file item;
                  Item.view := Item.view item;
                  Item.container := Item.container item |}
          else item)
       fileResolveMap,
     ids)
  else (fileResolveMap, []).

(** The handler of [file-open], on the file opened, the active view of
    type [MarkdownView] if there is one, with the id of its leaf, and the
    leaves of the workspace: the map it leaves and the ids it passes to
    [updateHeadings]. *)
Definition on_file_open (fileResolveMap : list (string * Item.t))
    (leaves : list Leaf.t) (file : option TFile)
    (activeView : option (string * LeafView))
    : list (string * Item.t) * list string :=
  match file with
  | Some file =>
      if isMarkdownFile file then
        match activeView with
        | Some (String c rest as id, active) =>
            let fileResolveMap :=
              JSMap.set fileResolveMap id
                {| Item.resolve := true; Item.file := file;
                   Item.container := contentEl active;
                   Item.view := view_object active |} in
            (checkFileResolveMap fileResolveMap leaves, [id])
        | _ => (fileResolveMap, [])
        end
      else (fileResolveMap, [])
  | None => (fileResolveMap, [])
  end.
End Lifecycle.

(** ** The offsets of the headings (getShownHeadings.ts) *)

(** What the resolvers read of a [MarkdownView]: the rendered sections of
    the preview, each with its [html] and its [height] if it has one; the
    [offsetTop] of the element [.cm-contentContainer] of the editor, if
    [querySelector] finds one; and [editor.cm.lineBlockAt], which yields a
    block or nothing ([None]), and of whose block only [top] is read, if
    it is there. *)
Record RenderedSection := { html : string; height : option Z }.
Record BlockInfo := { top : option Z }.
Record MarkdownView := {
  sections : list RenderedSection;
  contentContainer : option Z;
  lineBlockAt : Z → option BlockInfo;
}.

(** An element [{ heading, offset }] of the result. *)
Record Positioned := { ph_heading : Heading; ph_offset : Z }.

(** A call of a resolver returns its array, or throws the [TypeError] of
    a destructuring pattern applied to nothing. *)
Inductive Resolution := Resolved (positioned : list Positioned) | TypeError.

(** [/^<h[1-6]/i.test(html)]. *)
Definition isHeading (html : string) : bool :=
  match html with
  | String "<" (String c (String d _)) =>
      ((c =? "h")%char || (c =? "H")%char)
      && ((49 <=? nat_of_ascii d) && (nat_of_ascii d <=? 54))
  | _ => false
  end.

(** The loop over the sections: the state is [(headingsOffset, heightSum)]. *)
Definition scan_section (state : list Z * Z) (section : RenderedSection)
    : list Z * Z :=
  let '(headingsOffset, heightSum) := state in
  let headingsOffset :=
    if isHeading (html section) then JS.push headingsOffset heightSum
    else headingsOffset in
  (headingsOffset, (heightSum + JS.with_default 0 (height section))%Z).

Definition getHeadingsWithOffsetPreview (headings : list Heading)
    (view : MarkdownView) : list Positioned :=
  let '(headingsOffset, _) := foldl scan_section ([], 0%Z) (sections view) in
  imap (λ index heading,
          {| ph_heading := heading;
             ph_offset := or_zero (headingsOffset !! index) |}) headings.

(** One turn of the loop of [getHeadingsWithOffsetSource].  The pattern
    [{ top = 0 }] is applied to what [lineBlockAt] yields without a guard:
    on nothing it throws, and the loop is left. *)
Definition source_heading (view : MarkdownView) (state : Resolution)
    (heading : Heading) : Resolution :=
  match state with
  | Resolved result =>
      let offset_ := or_zero (contentContainer view) in
      match lineBlockAt view (offset (start (position heading))) with
      | Some block =>
          let top_ := JS.with_default 0%Z (top block) in
          Resolved
            (JS.push result
               {| ph_heading := heading; ph_offset := (top_ + offset_)%Z |})
      | None => TypeError
      end
  | TypeError => TypeError
  end.

Definition getHeadingsWithOffsetSource (headings : list Heading)
    (view : MarkdownView) : Resolution :=
  foldl (source_heading view) (Resolved []) headings.

(** [isEditSourceMode] belongs to the module [./obsidian], which is not
    modelled; its answer for the view is the argument [editSource]. *)
Definition getHeadingsWithOffset (editSource : bool) (headings : list Heading)
    (view : MarkdownView) : Resolution :=
  if editSource then getHeadingsWithOffsetSource headings view
  else Resolved (getHeadingsWithOffsetPreview headings view).

(** ** Examples of the specification *)

Definition Hdg (lvl : Z) (text : string) (ln : Z) : Heading :=
  {| heading := text; level := lvl;
     position := {| start := {| line := ln; col := 0; offset := 10 * ln |};
                    end_ := {| line := ln; col := 5; offset := 10 * ln + 5 |} |} |}.

Definition scenario : list Heading :=
  [Hdg 1 "A" 0; Hdg 2 "A.1" 1; Hdg 2 "A.2" 2; Hdg 1 "B" 3].

(** A preview of four blocks, two of them headings; an editor whose
    content container sits 50 below the origin and whose line blocks have
    no [top]; and an editor that yields no line block. *)
Definition preview_view : MarkdownView :=
  {| sections :=
       [ {| html := "<p>intro</p>"; height := Some 10%Z |};
         {| html := "<h1>A</h1>"; height := Some 20%Z |};
         {| html := "<div>"; height := None |};
         {| html := "<H2 id=x>A.1</H2>"; height := Some 5%Z |} ];
     contentContainer := None;
     lineBlockAt := λ _, Some {| top := None |} |}.

Definition source_view : MarkdownView :=
  {| sections := [];
     contentContainer := Some 50%Z;
     lineBlockAt := λ _, Some {| top := None |} |}.

Definition no_block_view : MarkdownView :=
  {| sections := [];
     contentContainer := Some 50%Z;
     lineBlockAt := λ _, None |}.

(** A workspace of three leaves, of which only the first shows a markdown
    file under a usable id, and a map that still holds a closed view. *)
Definition note_file : TFile := {| path := "note.md" |}.

Definition open_leaf : Leaf.t :=
  {| Leaf.id := "a";
     Leaf.view := Some {| getFile := Some note_file; contentEl := 1; view_object := 10 |} |}.

Definition workspace_leaves : list Leaf.t :=
  [ open_leaf;
    {| Leaf.id := "b"; Leaf.view := None |};
    {| Leaf.id := "";
       Leaf.view := Some {| getFile := Some note_file; contentEl := 2; view_object := 20 |} |} ].

Definition waiting_item : Item.t :=
  {| Item.resolve := false; Item.file := note_file; Item.view := 10; Item.container := 1 |}.

Definition stale_map : list (string * Item.t) :=
  [ ("z", waiting_item); ("a", waiting_item) ].

(** * Notions of the specification *)

(** The positions of the headings of level [t], counted from [k]: what the
    second reduction accumulates, written as a function of the array. *)
Fixpoint positions_from (t : Z) (k : nat) (l : list Heading) : list nat :=
  match l with
  | [] => []
  | h :: l => (if (level h =? t)%Z then [k] else []) ++ positions_from t (S k) l
  end.

(** The headings one call pushes. *)
Definition emitted (subHeadings : list Heading) (mode : Mode) : list Heading :=
  emit subHeadings [] mode.

(** The outcome of a run started on [result] rather than on the empty array. *)
Definition onto (result : list Heading) (r : Run) : Run :=
  match r with
  | Returned out => Returned (result ++ out)
  | Overflow out => Overflow (result ++ out)
  end.

Definition in_range (h : Heading) : Prop := (1 ≤ level h ≤ 6)%Z.

(** [m] is the minimum of the values [zs]. *)
Definition is_minimum (m : Z) (zs : list Z) : Prop :=
  m ∈ zs ∧ Forall (λ z, (m ≤ z)%Z) zs.

(** The indices, in increasing order, of the headings of level [t]. *)
Definition topIndices (t : Z) (candidates : list Heading) : list nat :=
  filter (λ i, level <$> candidates !! i = Some t) (seq 0 (length candidates)).

(** The order of the levels along a collapsed stack, by mode. *)
Definition level_order (mode : Mode) : relation Heading :=
  match mode with
  | concise => λ a b, (level a < level b)%Z
  | default => λ a b, (level a ≤ level b)%Z
  end.

(** The filter the specification words, on headings with their offsets. *)
Definition passed_by_offset (positioned : list Positioned) (scrollTop band : Z)
    : list Positioned :=
  filter (λ p, (ph_offset p ≤ scrollTop + band)%Z) positioned.

(** The height a block counts for. *)
Definition block_height (block : RenderedSection) : Z :=
  JS.with_default 0%Z (height block).

(** The sum of the heights of the blocks. *)
Definition heights (blocks : list RenderedSection) : Z :=
  foldr (λ block sum, (block_height block + sum)%Z) 0%Z blocks.

(** The number of heading blocks among the blocks. *)
Definition heading_blocks (blocks : list RenderedSection) : nat :=
  length (filter (λ block, isHeading (html block) = true) blocks).

(** The offsets recorded along the blocks, from the sum [sum]. *)
Fixpoint block_offsets (sum : Z) (blocks : list RenderedSection) : list Z :=
  match blocks with
  | [] => []
  | block :: blocks =>
      (if isHeading (html block) then [sum] else [])
      ++ block_offsets (sum + block_height block) blocks
  end.

(** The [top] of the line block of a heading, when there are both. *)
Definition line_top (view : MarkdownView) (h : Heading) : option Z :=
  lineBlockAt view (offset (start (position h))) ≫= top.

(** The positioned heading of the source strategy. *)
Definition source_positioned (view : MarkdownView) (h : Heading) : Positioned :=
  {| ph_heading := h;
     ph_offset :=
       (JS.with_default 0 (line_top view h) + or_zero (contentContainer view))%Z |}.

(** [lineBlockAt] yields a block for the heading. *)
Definition has_block (view : MarkdownView) (h : Heading) : Prop :=
  is_Some (lineBlockAt view (offset (start (position h)))).

(** [keeps mode h x]: a heading [x] that comes after [h] leaves [h] in the
    stack.  In concise mode [x] must be strictly deeper than [h], in
    default mode at least as deep. *)
Definition keeps (mode : Mode) (h x : Heading) : bool :=
  match mode with
  | concise => (level h <? level x)%Z
  | default => (level h <=? level x)%Z
  end.

(** The headings that every later heading keeps, in one pass from the left. *)
Fixpoint still_open (mode : Mode) (l : list Heading) : list Heading :=
  match l with
  | [] => []
  | h :: rest =>
      if forallb (keeps mode h) rest then h :: still_open mode rest
      else still_open mode rest
  end.

(** The last heading of the array, if any, has a level of at most 6. *)
Definition ends_within_6 (l : list Heading) : Prop :=
  ∀ h, last l = Some h → (level h ≤ 6)%Z.

(** The headings come in the order of the document: the last line of a
    heading is at most the last line of every heading after it. *)
Definition document_order (headings : list Heading) : Prop :=
  StronglySorted (λ a b, (line (end_ (position a)) ≤ line (end_ (position b)))%Z)
    headings.

(** Every text of the cache is what [parseMarkdown] makes of its key. *)
Definition coherent (parseMarkdown : string → string)
    (cache : gmap string string) : Prop :=
  ∀ k v, cache !! k = Some v → v = parseMarkdown k.

(** [k] is the id of a leaf that shows a [MarkdownView]. *)
Definition open_view (leaves : list Leaf.t) (k : string) : Prop :=
  ∃ leaf, leaf ∈ leaves ∧ Leaf.id leaf = k ∧ k ≠ EmptyString
          ∧ is_Some (Leaf.view leaf).

(** The entry with its flag [resolve] set to [b]. *)
Definition with_resolve (b : bool) (item : Item.t) : Item.t :=
  {| Item.resolve := b; Item.file := Item.file item;
     Item.view := Item.view item; Item.container := Item.container item |}.

(** * Properties *)

(** ** The two reductions of [trivial] *)

(** The head of the rest of an array, moved to the end of its prefix. *)
Lemma middle_snoc {A} (pre : list A) (x : A) (l : list A) :
  pre ++ x :: l = (pre ++ [x]) ++ l ∧ S (length pre) = length (pre ++ [x]).
Proof. rewrite <- app_assoc, length_app. cbn. split; [done|lia]. Qed.

Section Reductions.
Implicit Types (l pre post subHeadings result : list Heading) (h : Heading).
Implicit Types (t : Z) (k : nat).

Lemma min_reduce_from k l (init : Z) :
  let m := JS.reduce_from (λ res cur _, Z.min res (level cur)) k l init in
  (m ≤ init)%Z ∧ Forall (λ h, (m ≤ level h)%Z) l
  ∧ (m = init ∨ ∃ h, h ∈ l ∧ level h = m).
Proof.
  revert k init. induction l as [|h l IH]; intros k init; cbn.
  - split; [lia|]. split; [constructor|]. by left.
  - destruct (IH (S k) (Z.min init (level h))) as (Hle & Hall & Hat).
    cbn in Hle, Hall, Hat. split; [lia|]. split.
    + constructor; [lia|done].
    + destruct Hat as [Heq|(h' & Hin & Hlv)].
      * destruct (Z.min_spec init (level h)) as [[_ Hm]|[_ Hm]].
        -- left. lia.
        -- right. exists h. split; [left|lia].
      * right. exists h'. split; [by right|done].
Qed.

Lemma topLevel_le_6 subHeadings : (topLevel subHeadings ≤ 6)%Z.
Proof. apply (min_reduce_from 0 subHeadings 6). Qed.

Lemma topLevel_lower_bound subHeadings :
  Forall (λ h, (topLevel subHeadings ≤ level h)%Z) subHeadings.
Proof. apply (min_reduce_from 0 subHeadings 6). Qed.

(** As soon as one heading has a level of at most 6, [topLevel] is the
    level of some heading of the array. *)
Lemma topLevel_attained subHeadings h0 :
  h0 ∈ subHeadings → (level h0 ≤ 6)%Z →
  ∃ h, h ∈ subHeadings ∧ level h = topLevel subHeadings.
Proof.
  intros Hin H6.
  destruct (min_reduce_from 0 subHeadings 6) as (_ & Hall & [Heq|Hat]); [|done].
  exists h0. split; [done|]. rewrite Forall_forall in Hall.
  specialize (Hall h0 Hin). unfold topLevel, JS.reduce. lia.
Qed.

Lemma indexes_reduce_from t k l (acc : list nat) :
  JS.reduce_from
    (λ indexes cur index,
       if (level cur =? t)%Z then JS.push indexes index else indexes) k l acc
  = acc ++ positions_from t k l.
Proof.
  revert k acc. induction l as [|h l IH]; intros k acc; cbn.
  - by rewrite app_nil_r.
  - rewrite IH. destruct (level h =? t)%Z; cbn; [|done].
    unfold JS.push. by rewrite <- app_assoc.
Qed.

Lemma indexesOfTopLevel_positions subHeadings :
  indexesOfTopLevel subHeadings = positions_from (topLevel subHeadings) 0 subHeadings.
Proof. unfold indexesOfTopLevel, JS.reduce. by rewrite indexes_reduce_from. Qed.

Lemma positions_from_app t k l1 l2 :
  positions_from t k (l1 ++ l2)
  = positions_from t k l1 ++ positions_from t (k + length l1) l2.
Proof.
  revert k. induction l1 as [|h l1 IH]; intros k; cbn.
  - by rewrite Nat.add_0_r.
  - rewrite IH, <- app_assoc. do 3 f_equal. lia.
Qed.

Lemma positions_from_none t k l :
  Forall (λ h, level h ≠ t) l → positions_from t k l = [].
Proof.
  intros Hall. revert k. induction Hall as [|h l Hh _ IH]; intros k; cbn; [done|].
  rewrite IH. by destruct (Z.eqb_spec (level h) t).
Qed.

Lemma positions_from_bounds t k l i :
  i ∈ positions_from t k l → k ≤ i < k + length l.
Proof.
  revert k. induction l as [|h l IH]; intros k; cbn.
  - by intros ?%elem_of_nil.
  - rewrite elem_of_app. intros [Hi|Hi].
    + destruct (level h =? t)%Z.
      * apply list_elem_of_singleton in Hi. lia.
      * by apply elem_of_nil in Hi.
    + apply IH in Hi. lia.
Qed.

(** Every index read by [push_at] is a position of the array. *)
Lemma indexesOfTopLevel_lookup subHeadings i :
  i ∈ indexesOfTopLevel subHeadings → is_Some (subHeadings !! i).
Proof.
  rewrite indexesOfTopLevel_positions. intros Hi%positions_from_bounds.
  apply lookup_lt_is_Some. lia.
Qed.

(** The array is cut at the last heading of level [t], when there is one. *)
Lemma last_occurrence_split t l :
  Forall (λ h, level h ≠ t) l
  ∨ ∃ pre hj post, l = pre ++ hj :: post ∧ level hj = t
                   ∧ Forall (λ h, level h ≠ t) post.
Proof.
  induction l as [|h l [Hnone|(pre & hj & post & -> & Hlv & Hpost)]].
  - left. constructor.
  - destruct (decide (level h = t)) as [Heq|Hne].
    + right. by exists [], h, l.
    + left. by constructor.
  - right. by exists (h :: pre), hj, post.
Qed.

End Reductions.

(** ** One call of [trivial] *)

Section Step.
Implicit Types (l pre post subHeadings result out : list Heading) (h hj : Heading).
Implicit Types (t : Z) (k : nat) (mode : Mode).

Lemma filter_level_none t l :
  Forall (λ h, level h ≠ t) l → filter (λ h, level h = t) l = [].
Proof.
  induction 1 as [|h l Hne _ IH]; [done|]. by rewrite filter_cons_False.
Qed.

Lemma foldl_push_at_positions t pre l result :
  foldl (push_at (pre ++ l)) result (positions_from t (length pre) l)
  = result ++ filter (λ h, level h = t) l.
Proof.
  revert pre result. induction l as [|h l IH]; intros pre result.
  - cbn. by rewrite app_nil_r.
  - destruct (middle_snoc pre h l) as [Hsnoc Hlen].
    change (positions_from t (length pre) (h :: l))
      with ((if (level h =? t)%Z then [length pre] else [])
            ++ positions_from t (S (length pre)) l).
    rewrite foldl_app, Hlen, Hsnoc, IH, <- Hsnoc.
    destruct (Z.eqb_spec (level h) t) as [Heq|Hne].
    + rewrite filter_cons_True by done. cbn. unfold push_at.
      rewrite list_lookup_middle by done. unfold JS.push.
      by rewrite <- app_assoc.
    + by rewrite filter_cons_False.
Qed.

(** A call on an array that has a heading of level [topLevel]: the array
    is [pre ++ hj :: post], [hj] being the last such heading. *)
Lemma step_split subHeadings pre hj post :
  subHeadings = pre ++ hj :: post →
  level hj = topLevel subHeadings →
  Forall (λ h, level h ≠ topLevel subHeadings) post →
  indexesOfTopLevel subHeadings
    = positions_from (topLevel subHeadings) 0 pre ++ [length pre]
  ∧ remainder subHeadings = post
  ∧ (∀ result, emit subHeadings result concise = result ++ [hj])
  ∧ (∀ result, emit subHeadings result default
       = result ++ filter (λ h, level h = topLevel subHeadings) pre ++ [hj]).
Proof.
  intros Hsub Hlv Hpost.
  assert (Hidx : indexesOfTopLevel subHeadings
    = positions_from (topLevel subHeadings) 0 pre ++ [length pre]).
  { rewrite indexesOfTopLevel_positions. rewrite Hsub at 2.
    rewrite positions_from_app. cbn.
    rewrite (positions_from_none _ _ post) by done.
    rewrite Hlv, Z.eqb_refl. done. }
  assert (Hlast : last (indexesOfTopLevel subHeadings) = Some (length pre)).
  { rewrite Hidx. apply last_snoc. }
  assert (Hat : subHeadings !! length pre = Some hj).
  { rewrite Hsub. by apply list_lookup_middle. }
  split; [done|]. split; [|split].
  - unfold remainder. rewrite Hlast. cbn. unfold JS.relative_index.
    assert (Hlen : length subHeadings = length pre + S (length post)).
    { rewrite Hsub, length_app. done. }
    destruct (Z.ltb_spec (Z.of_nat (length pre) + 1) 0) as [?|_]; [lia|].
    replace (Z.to_nat _) with (S (length pre)) by lia.
    rewrite Hsub. replace (pre ++ hj :: post) with ((pre ++ [hj]) ++ post)
      by by rewrite <- app_assoc.
    apply drop_app_length'. rewrite length_app. cbn. lia.
  - intros result. cbn. rewrite Hlast. unfold push_at. by rewrite Hat.
  - intros result. cbn. rewrite indexesOfTopLevel_positions.
    pose proof (foldl_push_at_positions (topLevel subHeadings) [] subHeadings result)
      as Hfold.
    cbn in Hfold. rewrite Hfold. f_equal.
    generalize dependent (topLevel subHeadings). intros t Hlv Hpost _ _.
    rewrite Hsub, filter_app, filter_cons_True by done.
    by rewrite (filter_level_none t post).
Qed.

(** A call on an array without any heading of level [topLevel] (all its
    levels exceed 6): nothing is pushed and the same array is passed on. *)
Lemma step_stuck subHeadings :
  Forall (λ h, level h ≠ topLevel subHeadings) subHeadings →
  indexesOfTopLevel subHeadings = []
  ∧ remainder subHeadings = subHeadings
  ∧ ∀ result mode, emit subHeadings result mode = result.
Proof.
  intros Hnone.
  assert (Hidx : indexesOfTopLevel subHeadings = []).
  { rewrite indexesOfTopLevel_positions. by apply positions_from_none. }
  split; [done|]. split.
  - unfold remainder. by rewrite Hidx.
  - intros result [|]; unfold emit; by rewrite Hidx.
Qed.

(** What [emit] does to a non-empty [result]. *)
Lemma emit_app subHeadings result mode :
  emit subHeadings result mode = result ++ emitted subHeadings mode.
Proof.
  unfold emitted.
  destruct (last_occurrence_split (topLevel subHeadings) subHeadings)
    as [Hnone|(pre & hj & post & Hsub & Hlv & Hpost)].
  - destruct (step_stuck _ Hnone) as (_ & _ & Hemit).
    by rewrite !Hemit, app_nil_r.
  - destruct (step_split _ _ _ _ Hsub Hlv Hpost) as (_ & _ & Hc & Hd).
    destruct mode; by rewrite ?Hc, ?Hd.
Qed.

End Step.

(** ** Runs of [trivial] *)

Section Runs.
Implicit Types (l pre post subHeadings result out : list Heading) (h hj : Heading).
Implicit Types (fuel : nat) (mode : Mode).

Lemma onto_app result1 result2 r :
  onto (result1 ++ result2) r = onto result1 (onto result2 r).
Proof. destruct r; cbn; by rewrite app_assoc. Qed.

(** [trivial] only ever appends to [result]. *)
Lemma trivial_onto fuel subHeadings result mode :
  trivial fuel subHeadings result mode
  = onto result (trivial fuel subHeadings [] mode).
Proof.
  revert subHeadings result.
  induction fuel as [|fuel IH]; intros subHeadings result; cbn [trivial onto].
  - by rewrite app_nil_r.
  - destruct subHeadings as [|h l]; cbn [onto]; [by rewrite app_nil_r|].
    rewrite IH, (IH _ (emit _ [] _)), <- onto_app.
    by rewrite (emit_app _ result).
Qed.

Lemma trivial_fuel_mono fuel fuel' subHeadings result mode out :
  trivial fuel subHeadings result mode = Returned out →
  fuel ≤ fuel' →
  trivial fuel' subHeadings result mode = Returned out.
Proof.
  revert fuel' subHeadings result.
  induction fuel as [|fuel IH]; intros fuel' subHeadings result; cbn; [done|].
  intros Hrun Hle. destruct fuel' as [|fuel']; [lia|]. cbn.
  destruct subHeadings as [|h l]; [done|]. apply IH; [done|lia].
Qed.

(** An array with a level of at most 6 is cut at its last heading of
    level [topLevel]. *)
Lemma split_at_top subHeadings h0 :
  h0 ∈ subHeadings → (level h0 ≤ 6)%Z →
  ∃ pre hj post, subHeadings = pre ++ hj :: post
    ∧ level hj = topLevel subHeadings
    ∧ Forall (λ h, level h ≠ topLevel subHeadings) post.
Proof.
  intros Hin H6.
  destruct (last_occurrence_split (topLevel subHeadings) subHeadings)
    as [Hnone|Hsplit]; [|done].
  destruct (topLevel_attained _ _ Hin H6) as (h & Hh & Hlv).
  rewrite Forall_forall in Hnone. by destruct (Hnone h Hh).
Qed.

Lemma remainder_shorter subHeadings :
  subHeadings ≠ [] → Forall (λ h, (level h ≤ 6)%Z) subHeadings →
  length (remainder subHeadings) < length subHeadings
  ∧ remainder subHeadings `suffix_of` subHeadings.
Proof.
  intros Hne Hall. destruct subHeadings as [|h0 l]; [done|].
  destruct (split_at_top (h0 :: l) h0) as (pre & hj & post & Hsub & Hlv & Hpost).
  { left. } { by inversion Hall. }
  destruct (step_split _ _ _ _ Hsub Hlv Hpost) as (_ & -> & _).
  rewrite Hsub, length_app. cbn. split; [lia|].
  exists (pre ++ [hj]). by rewrite <- app_assoc.
Qed.

Lemma trivial_returns fuel subHeadings mode :
  Forall (λ h, (level h ≤ 6)%Z) subHeadings →
  length subHeadings < fuel →
  ∃ out, trivial fuel subHeadings [] mode = Returned out.
Proof.
  revert subHeadings.
  induction fuel as [|fuel IH]; intros subHeadings Hall Hlen; [lia|].
  destruct subHeadings as [|h l] eqn:Heq; [by exists []|].
  rewrite <- Heq in *. assert (Hne : subHeadings ≠ []) by by rewrite Heq.
  destruct (remainder_shorter _ Hne Hall) as (Hlt & Hsuf).
  destruct (IH (remainder subHeadings)) as (out & Hout).
  { destruct Hsuf as (k & Hk). rewrite Hk in Hall.
    by apply Forall_app in Hall as [_ ?]. }
  { lia. }
  exists (emitted subHeadings mode ++ out).
  rewrite Heq at 1. cbn. rewrite <- Heq.
  rewrite trivial_onto, Hout. cbn. by rewrite emit_app.
Qed.

Lemma collapse_nil mode : collapse [] mode = [].
Proof. done. Qed.

(** With a stack deeper than the array is long, a run on levels of at most
    6 returns, and appends [collapse] to [result]. *)
Lemma trivial_collapse fuel subHeadings result mode :
  Forall (λ h, (level h ≤ 6)%Z) subHeadings →
  length subHeadings < fuel →
  trivial fuel subHeadings result mode
  = Returned (result ++ collapse subHeadings mode).
Proof.
  intros Hall Hlen.
  destruct (trivial_returns (S (length subHeadings)) subHeadings mode)
    as (out & Hout); [done|lia|].
  unfold collapse. rewrite Hout. cbn.
  rewrite trivial_onto, (trivial_fuel_mono _ fuel _ _ _ _ Hout) by lia.
  done.
Qed.

Lemma collapse_split subHeadings pre hj post mode :
  subHeadings = pre ++ hj :: post →
  level hj = topLevel subHeadings →
  Forall (λ h, level h ≠ topLevel subHeadings) post →
  Forall (λ h, (level h ≤ 6)%Z) subHeadings →
  collapse subHeadings mode = emitted subHeadings mode ++ collapse post mode.
Proof.
  intros Hsub Hlv Hpost Hall.
  destruct (step_split _ _ _ _ Hsub Hlv Hpost) as (_ & Hrem & _).
  assert (Hall' : Forall (λ h, (level h ≤ 6)%Z) post).
  { rewrite Hsub in Hall. apply Forall_app in Hall as [_ Hall].
    by inversion Hall. }
  unfold collapse at 1. destruct subHeadings as [|h l] eqn:Heq.
  { by destruct pre. }
  rewrite <- Heq in *. rewrite Heq at 2. cbn [trivial]. rewrite <- Heq.
  rewrite Hrem, trivial_collapse; [done|done|].
  rewrite Hsub, length_app. cbn. lia.
Qed.

(** Whatever the array and the depth of the stack, what has been pushed is
    a sublist of the array. *)
Lemma trivial_sublist fuel subHeadings mode :
  pushed (trivial fuel subHeadings [] mode) `sublist_of` subHeadings.
Proof.
  revert subHeadings. induction fuel as [|fuel IH]; intros subHeadings; cbn.
  { apply sublist_nil_l. }
  destruct subHeadings as [|h l] eqn:Heq; [done|]. rewrite <- Heq.
  rewrite trivial_onto.
  assert (Hpushed : ∀ result r, pushed (onto result r) = result ++ pushed r)
    by by intros ? [].
  rewrite Hpushed, emit_app. cbn.
  destruct (last_occurrence_split (topLevel subHeadings) subHeadings)
    as [Hnone|(pre & hj & post & Hsub & Hlv & Hpost)].
  - destruct (step_stuck _ Hnone) as (_ & Hrem & Hemit).
    unfold emitted. rewrite Hemit, Hrem. apply IH.
  - destruct (step_split _ _ _ _ Hsub Hlv Hpost) as (_ & Hrem & Hc & Hd).
    rewrite Hrem.
    assert (Hcut : emitted subHeadings mode `sublist_of` pre ++ [hj]).
    { unfold emitted. destruct mode.
      - rewrite Hd. cbn. apply sublist_app; [apply sublist_filter|done].
      - rewrite Hc. cbn. by apply sublist_inserts_l. }
    pose proof (sublist_app _ _ _ _ Hcut (IH post)) as Hall.
    by rewrite <- app_assoc, <- cons_middle, <- Hsub in Hall.
Qed.

End Runs.

(** ** The collapse as the specification words it *)

Section Collapse.
Implicit Types (l pre post subHeadings result out : list Heading) (h hj : Heading).
Implicit Types (t : Z) (fuel : nat) (mode : Mode).

Lemma positions_from_seq t pre l :
  positions_from t (length pre) l
  = filter (λ i, level <$> (pre ++ l) !! i = Some t) (seq (length pre) (length l)).
Proof.
  revert pre. induction l as [|h l IH]; intros pre; [done|].
  destruct (middle_snoc pre h l) as [Hsnoc Hlen].
  change (positions_from t (length pre) (h :: l))
    with ((if (level h =? t)%Z then [length pre] else [])
          ++ positions_from t (S (length pre)) l).
  change (seq (length pre) (length (h :: l)))
    with (length pre :: seq (S (length pre)) (length l)).
  rewrite filter_cons, Hlen, Hsnoc, IH, <- Hsnoc, list_lookup_middle by done.
  cbn. destruct (Z.eqb_spec (level h) t) as [Heq|Hne].
  - by rewrite decide_True by by rewrite Heq.
  - rewrite decide_False; [done|]. by intros [=].
Qed.

Lemma indexesOfTopLevel_topIndices subHeadings :
  indexesOfTopLevel subHeadings = topIndices (topLevel subHeadings) subHeadings.
Proof.
  rewrite indexesOfTopLevel_positions.
  apply (positions_from_seq (topLevel subHeadings) [] subHeadings).
Qed.

(** The headings of level [t], in order, are the headings at the positions
    of level [t]. *)
Lemma positions_from_filter t pre l :
  Forall2 (λ i h, (pre ++ l) !! i = Some h)
    (positions_from t (length pre) l) (filter (λ h, level h = t) l).
Proof.
  revert pre. induction l as [|h l IH]; intros pre; [constructor|].
  destruct (middle_snoc pre h l) as [Hsnoc Hlen].
  change (positions_from t (length pre) (h :: l))
    with ((if (level h =? t)%Z then [length pre] else [])
          ++ positions_from t (S (length pre)) l).
  specialize (IH (pre ++ [h])). rewrite <- Hlen, <- Hsnoc in IH.
  destruct (Z.eqb_spec (level h) t) as [Heq|Hne].
  - rewrite filter_cons_True by done. constructor; [|done].
    by apply list_lookup_middle.
  - by rewrite filter_cons_False.
Qed.

Lemma emitted_split subHeadings pre hj post :
  subHeadings = pre ++ hj :: post →
  level hj = topLevel subHeadings →
  Forall (λ h, level h ≠ topLevel subHeadings) post →
  emitted subHeadings concise = [hj]
  ∧ emitted subHeadings default
    = filter (λ h, level h = topLevel subHeadings) subHeadings.
Proof.
  intros Hsub Hlv Hpost.
  destruct (step_split _ _ _ _ Hsub Hlv Hpost) as (_ & _ & Hc & Hd).
  unfold emitted. rewrite Hc, Hd. split; [done|]. cbn. clear Hc Hd.
  generalize dependent (topLevel subHeadings). intros t Hlv Hpost.
  rewrite Hsub, filter_app, filter_cons_True by done.
  by rewrite (filter_level_none t post).
Qed.

Lemma emitted_level subHeadings mode :
  Forall (λ h, level h = topLevel subHeadings) (emitted subHeadings mode).
Proof.
  destruct (last_occurrence_split (topLevel subHeadings) subHeadings)
    as [Hnone|(pre & hj & post & Hsub & Hlv & Hpost)].
  - destruct (step_stuck _ Hnone) as (_ & _ & Hemit).
    unfold emitted. rewrite Hemit. constructor.
  - destruct (emitted_split _ _ _ _ Hsub Hlv Hpost) as (Hc & Hd).
    destruct mode; rewrite ?Hc, ?Hd.
    + apply Forall_forall. by intros h [? _]%list_elem_of_filter.
    + by repeat constructor.
Qed.

Lemma same_level_sorted mode t l :
  Forall (λ h, level h = t) l → mode = default ∨ length l ≤ 1 →
  StronglySorted (level_order mode) l.
Proof.
  intros Hall Hmode. induction Hall as [|h l Hh Hall IH]; [constructor|].
  constructor.
  - apply IH. destruct Hmode as [?|Hlen]; [by left|right]. cbn in Hlen. lia.
  - destruct Hmode as [->|Hlen].
    + eapply Forall_impl; [exact Hall|]. cbn. intros h' Hh'. lia.
    + destruct l; [constructor|]. cbn in Hlen. lia.
Qed.

Lemma collapse_sublist subHeadings mode :
  collapse subHeadings mode `sublist_of` subHeadings.
Proof. apply trivial_sublist. Qed.

Lemma collapse_sorted subHeadings mode :
  Forall (λ h, (level h ≤ 6)%Z) subHeadings →
  StronglySorted (level_order mode) (collapse subHeadings mode).
Proof.
  remember (length subHeadings) as n eqn:Hn.
  revert subHeadings Hn. induction (lt_wf n) as [n _ IH].
  intros subHeadings -> Hall.
  destruct subHeadings as [|h0 l] eqn:Heq; [constructor|]. rewrite <- Heq in *.
  destruct (split_at_top subHeadings h0) as (pre & hj & post & Hsub & Hlv & Hpost).
  { rewrite Heq. left. } { rewrite Heq in Hall. by inversion Hall. }
  assert (Hall' : Forall (λ h, (level h ≤ 6)%Z) post).
  { rewrite Hsub in Hall. apply Forall_app in Hall as [_ Hall].
    by inversion Hall. }
  assert (Hdeep : Forall (λ h, (topLevel subHeadings < level h)%Z) post).
  { pose proof (topLevel_lower_bound subHeadings) as Hlow.
    rewrite Forall_forall in Hlow, Hpost. apply Forall_forall. intros h Hh.
    assert (Hin : h ∈ subHeadings).
    { rewrite Hsub. apply elem_of_app. right. by right. }
    specialize (Hlow h Hin). specialize (Hpost h Hh). lia. }
  rewrite (collapse_split _ _ _ _ mode Hsub Hlv Hpost Hall).
  apply StronglySorted_app_2.
  - intros x1 x2 Hx1 Hx2.
    pose proof (emitted_level subHeadings mode) as Hem.
    rewrite Forall_forall in Hem, Hdeep. specialize (Hem x1 Hx1).
    apply (sublist_subseteq _ _ (collapse_sublist post mode)) in Hx2.
    specialize (Hdeep x2 Hx2). destruct mode; cbn; lia.
  - apply (same_level_sorted mode (topLevel subHeadings)).
    { apply emitted_level. }
    destruct (emitted_split _ _ _ _ Hsub Hlv Hpost) as (Hc & _).
    destruct mode; [by left|right]. by rewrite Hc.
  - apply (IH (length post)); [|done|done].
    rewrite Hsub, length_app. cbn. lia.
Qed.

End Collapse.

(** ** The collapse: behaviour, examples, invariants, termination *)

Lemma in_range_le_6 (l : list Heading) :
  Forall in_range l → Forall (λ h, (level h ≤ 6)%Z) l.
Proof.
  intros Hl. eapply Forall_impl; [exact Hl|]. unfold in_range. intros h ?. lia.
Qed.

Lemma scenario_in_range : Forall in_range scenario.
Proof. repeat constructor; unfold in_range; cbn; lia. Defined.

(** C1. For candidates whose levels all lie in [1,6] and either mode, a
    call of [trivial] with a deep enough stack returns, having appended
    [collapse candidates mode] to [result]; that sequence is empty when the
    candidates are, and otherwise, [top] being the minimum level present
    and [topIndices top candidates] the increasing indices of the
    candidates of that level, it is the single candidate at the last of
    these indices in concise mode, the candidates at all of these indices
    in order in default mode, followed in both modes by the collapse of
    the candidates strictly after the last of these indices. *)
Theorem collapse_spec (candidates : list Heading) (mode : Mode) :
  Forall in_range candidates →
  (∀ fuel result, length candidates < fuel →
     trivial fuel candidates result mode
     = Returned (result ++ collapse candidates mode))
  ∧ match candidates with
    | [] => collapse candidates mode = []
    | _ :: _ =>
        ∃ top lastIndex shown,
          is_minimum top (level <$> candidates)
          ∧ last (topIndices top candidates) = Some lastIndex
          ∧ match mode with
            | concise => ∃ h, candidates !! lastIndex = Some h ∧ shown = [h]
            | default =>
                Forall2 (λ i h, candidates !! i = Some h)
                  (topIndices top candidates) shown
            end
          ∧ collapse candidates mode
            = shown ++ collapse (drop (S lastIndex) candidates) mode
    end.
Proof.
  intros Hall%in_range_le_6. split.
  { intros fuel result Hlen. by apply trivial_collapse. }
  destruct candidates as [|h0 l] eqn:Heq; [done|]. rewrite <- Heq in *.
  destruct (split_at_top candidates h0) as (pre & hj & post & Hsub & Hlv & Hpost).
  { rewrite Heq. left. } { rewrite Heq in Hall. by inversion Hall. }
  destruct (step_split _ _ _ _ Hsub Hlv Hpost) as (Hidx & _).
  destruct (emitted_split _ _ _ _ Hsub Hlv Hpost) as (Hc & Hd).
  exists (topLevel candidates), (length pre), (emitted candidates mode).
  split; [|split; [|split]].
  - split.
    + rewrite <- Hlv, Hsub. apply list_elem_of_fmap_2.
      apply elem_of_app. right. left.
    + apply Forall_fmap. apply topLevel_lower_bound.
  - rewrite <- indexesOfTopLevel_topIndices, Hidx. apply last_snoc.
  - destruct mode.
    + rewrite Hd, <- indexesOfTopLevel_topIndices, indexesOfTopLevel_positions.
      apply (positions_from_filter (topLevel candidates) [] candidates).
    + exists hj. split; [|done]. rewrite Hsub. by apply list_lookup_middle.
  - rewrite (collapse_split _ _ _ _ mode Hsub Hlv Hpost Hall). do 2 f_equal.
    rewrite Hsub, cons_middle, app_assoc. symmetry.
    apply drop_app_length'. rewrite length_app. cbn. lia.
Qed.

Lemma collapse_spec_witness :
  Forall in_range scenario
  ∧ trivial 5 scenario [] default = Returned ([] ++ collapse scenario default).
Proof.
  split; [exact scenario_in_range|].
  apply (collapse_spec scenario default scenario_in_range). cbn. lia.
Defined.

(** C2. On the candidates [H1 "A"; H2 "A.1"; H2 "A.2"; H1 "B"], in default
    mode [trivial] appends exactly [H1 "A"; H1 "B"] and in concise mode
    exactly [H1 "B"], whatever the depth of the stack from 5 calls on. *)
Theorem scenario_collapse (fuel : nat) :
  trivial (5 + fuel) scenario [] default = Returned [Hdg 1 "A" 0; Hdg 1 "B" 3]
  ∧ trivial (5 + fuel) scenario [] concise = Returned [Hdg 1 "B" 3].
Proof.
  split.
  - by apply (trivial_fuel_mono 5); [|lia].
  - by apply (trivial_fuel_mono 5); [|lia].
Qed.

(** C3. For every array, every content of [result], either mode and every
    depth of the stack, what [trivial] has appended to [result] is a
    sublist of the array: its headings are headings of the array, in the
    order the array has them. *)
Theorem trivial_subsequence (fuel : nat) (subHeadings result : list Heading)
    (mode : Mode) :
  ∃ out, pushed (trivial fuel subHeadings result mode) = result ++ out
    ∧ out `sublist_of` subHeadings
    ∧ Forall (λ h, h ∈ subHeadings) out.
Proof.
  exists (pushed (trivial fuel subHeadings [] mode)).
  pose proof (trivial_sublist fuel subHeadings mode) as Hsub.
  split; [|split; [done|]].
  - rewrite trivial_onto. by destruct (trivial _ _ [] _).
  - apply Forall_forall. intros h. by apply sublist_subseteq.
Qed.

(** C9. On an array whose levels all lie in [1,6] the recursion ends: when
    the array is not empty its minimum level is the level of one of its
    headings, the array passed to the recursive call starts strictly after
    the last heading of that level, is strictly shorter and again has its
    levels in [1,6]; and every run with a stack deeper than the array is
    long returns, with the same result. *)
Theorem trivial_terminates (subHeadings result : list Heading) (mode : Mode) :
  Forall in_range subHeadings →
  (subHeadings ≠ [] →
     ∃ j h, last (indexesOfTopLevel subHeadings) = Some j
       ∧ subHeadings !! j = Some h ∧ level h = topLevel subHeadings
       ∧ remainder subHeadings = drop (S j) subHeadings
       ∧ length (remainder subHeadings) < length subHeadings
       ∧ Forall in_range (remainder subHeadings))
  ∧ ∃ out, ∀ fuel, length subHeadings < fuel →
      trivial fuel subHeadings result mode = Returned out.
Proof.
  intros Hrange. pose proof (in_range_le_6 _ Hrange) as Hall. split.
  - intros Hne. destruct subHeadings as [|h0 l] eqn:Heq; [done|].
    rewrite <- Heq in *.
    destruct (split_at_top subHeadings h0)
      as (pre & hj & post & Hsub & Hlv & Hpost).
    { rewrite Heq. left. } { rewrite Heq in Hall. by inversion Hall. }
    destruct (step_split _ _ _ _ Hsub Hlv Hpost) as (Hidx & Hrem & _).
    exists (length pre), hj. rewrite Hrem, Hidx.
    split; [apply last_snoc|]. split; [rewrite Hsub; by apply list_lookup_middle|].
    split; [done|]. split; [|split].
    + rewrite Hsub, cons_middle, app_assoc. symmetry.
      apply drop_app_length'. rewrite length_app. cbn. lia.
    + rewrite Hsub, length_app. cbn. lia.
    + rewrite Hsub in Hrange. apply Forall_app in Hrange as [_ Hrange].
      by inversion Hrange.
  - exists (result ++ collapse subHeadings mode). intros fuel Hlen.
    by apply trivial_collapse.
Qed.

Lemma trivial_terminates_witness :
  Forall in_range scenario
  ∧ ∃ out, ∀ fuel, length scenario < fuel →
      trivial fuel scenario [] concise = Returned out.
Proof.
  split; [exact scenario_in_range|].
  exact (proj2 (trivial_terminates scenario [] concise scenario_in_range)).
Defined.

(** The bound on the levels matters: a heading of level 7 alone is passed
    on unchanged by every call, so no stack is deep enough. *)
Lemma trivial_overflow_level_7 (fuel : nat) (mode : Mode) :
  trivial fuel [Hdg 7 "deep" 0] [] mode = Overflow [].
Proof.
  induction fuel as [|fuel IH]; [done|].
  cbn [trivial]. destruct mode; exact IH.
Qed.

(** C10. On an array whose levels all lie in [1,6], the levels of the
    headings appended in concise mode increase strictly from each heading
    to the next, and those appended in default mode never decrease. *)
Theorem collapse_levels_sorted (subHeadings : list Heading) :
  Forall in_range subHeadings →
  ∃ out_concise out_default,
    (∀ fuel, length subHeadings < fuel →
       trivial fuel subHeadings [] concise = Returned out_concise
       ∧ trivial fuel subHeadings [] default = Returned out_default)
    ∧ Sorted Z.lt (level <$> out_concise)
    ∧ Sorted Z.le (level <$> out_default).
Proof.
  intros Hall%in_range_le_6.
  exists (collapse subHeadings concise), (collapse subHeadings default).
  split; [|split].
  - intros fuel Hlen. split; by rewrite trivial_collapse.
  - apply StronglySorted_Sorted.
    apply (StronglySorted_fmap level (level_order concise)); [done|].
    by apply collapse_sorted.
  - apply StronglySorted_Sorted.
    apply (StronglySorted_fmap level (level_order default)); [done|].
    by apply collapse_sorted.
Qed.

Lemma collapse_levels_sorted_witness :
  Forall in_range scenario
  ∧ ∃ out_concise out_default,
      (∀ fuel, length scenario < fuel →
         trivial fuel scenario [] concise = Returned out_concise
         ∧ trivial fuel scenario [] default = Returned out_default)
      ∧ Sorted Z.lt (level <$> out_concise)
      ∧ Sorted Z.le (level <$> out_default).
Proof.
  split; [exact scenario_in_range|].
  exact (collapse_levels_sorted scenario scenario_in_range).
Defined.

(** ** Truncation and the setting [max] *)

Section Truncation.
Implicit Types (stack : list Heading) (settings : ISetting) (n : Z).

Lemma truthy_spec n : truthy n = true ↔ n ≠ 0%Z.
Proof. unfold truthy. destruct (Z.eqb_spec n 0); naive_solver. Qed.

Lemma or_zero_Some n : or_zero (Some n) = n.
Proof. unfold or_zero, truthy. by destruct (Z.eqb_spec n 0). Qed.

Lemma truncate_zero stack : truncate 0 stack = stack.
Proof. done. Qed.

(** A positive [max] keeps the last [max] headings. *)
Lemma truncate_positive n stack :
  (0 < n)%Z → truncate n stack = drop (length stack - Z.to_nat n) stack.
Proof.
  intros Hpos. unfold truncate. rewrite (proj2 (truthy_spec n)) by lia.
  cbn. unfold JS.relative_index.
  destruct (Z.ltb_spec (- n) 0) as [_|?]; [|lia]. f_equal. lia.
Qed.

Lemma truncate_length n stack :
  (0 < n)%Z → length (truncate n stack) = length stack `min` Z.to_nat n.
Proof. intros Hpos. rewrite truncate_positive, length_drop by done. lia. Qed.

(** A negative [max] drops the first [- max] headings. *)
Lemma truncate_negative n stack :
  (n < 0)%Z → truncate n stack = drop (Z.to_nat (- n)) stack.
Proof.
  intros Hneg. unfold truncate. rewrite (proj2 (truthy_spec n)) by lia.
  cbn. unfold JS.relative_index.
  destruct (Z.ltb_spec (- n) 0) as [?|_]; [lia|].
  destruct (Z.min_spec (- n) (Z.of_nat (length stack))) as [[_ ->]|[Hge ->]].
  - done.
  - rewrite Nat2Z.id, !drop_ge; [done|lia|lia].
Qed.

(** What [renderHeadings] draws is bounded by a positive [max]. *)
Lemma finalHeadings_bounded settings fuel headings scrollTop final :
  (0 < max settings)%Z →
  finalHeadings settings fuel headings scrollTop = Returned final →
  length final ≤ Z.to_nat (max settings).
Proof.
  intros Hpos. unfold finalHeadings.
  destruct (match validHeadings headings scrollTop with
            | [] => _ | _ => _ end) as [out|out]; [|done].
  intros [= <-]. rewrite truncate_length by done. lia.
Qed.

(** [makeExpectedHeadings] returns what it would return without a limit. *)
Lemma makeExpectedHeadings_max_unused headings n mode fuel index :
  makeExpectedHeadings headings n mode fuel index
  = makeExpectedHeadings headings 0 mode fuel index.
Proof. done. Qed.

(** A text without a leading number sets [max] to 0. *)
Lemma onChange_max_NaN settings value :
  parseInt10 value = None → max (onChange_max settings value) = 0%Z.
Proof. intros Hnan. cbn. by rewrite Hnan. Qed.

(** A text that reads as the number [n] sets [max] to [n], negative or not. *)
Lemma onChange_max_number settings value n :
  parseInt10 value = Some n → max (onChange_max settings value) = n.
Proof. intros Hn. cbn. by rewrite Hn, or_zero_Some. Qed.

End Truncation.

(** C4. The truncation of [renderHeadings] keeps [min (length stack) max]
    headings for a positive [max] ([truncate_length]) and all of them for
    [max = 0] ([truncate_zero]); the function made by
    [makeExpectedHeadings] drops the truncated array instead of returning
    it: with [max = 1] it returns the two headings of [H1 "A"; H2 "B"]. *)
Theorem makeExpectedHeadings_exceeds_max :
  makeExpectedHeadings [Hdg 1 "A" 0; Hdg 2 "B" 1] 1 default 3 2
  = Returned [Hdg 1 "A" 0; Hdg 2 "B" 1]
  ∧ truncate 1 [Hdg 1 "A" 0; Hdg 2 "B" 1] = [Hdg 2 "B" 1].
Proof. split; reflexivity. Qed.

(** C8. The text [-2] typed in the field of [max] is stored as [max = -2],
    and the truncation of [renderHeadings] then drops the first two of
    three headings, where an unlimited stack keeps the three. *)
Theorem negative_max_drops_leading :
  let settings := onChange_max {| mode := default; max := 0 |} "-2" in
  max settings = (-2)%Z
  ∧ truncate (max settings) [Hdg 1 "A" 0; Hdg 2 "B" 1; Hdg 3 "C" 2] = [Hdg 3 "C" 2]
  ∧ truncate 0 [Hdg 1 "A" 0; Hdg 2 "B" 1; Hdg 3 "C" 2]
    = [Hdg 1 "A" 0; Hdg 2 "B" 1; Hdg 3 "C" 2].
Proof. repeat split; reflexivity. Qed.

(** ** The headings scrolled past *)

Section Filter.
Context {A : Type}.
Implicit Types (f : A → bool) (arr : list A).

Lemma js_filter_elem_of f arr x : x ∈ JS.filter f arr ↔ x ∈ arr ∧ f x = true.
Proof.
  induction arr as [|y arr IH]; cbn.
  - rewrite elem_of_nil. by split; [|intros [? _]].
  - destruct (f y) eqn:Hy; rewrite ?elem_of_cons, IH.
    + split; [intros [->|[? ?]]|intros [[->|?] ?]]; auto.
    + split; [intros [? ?]|intros [[->|?] ?]]; auto. congruence.
Qed.

Lemma js_filter_sublist f arr : JS.filter f arr `sublist_of` arr.
Proof.
  induction arr as [|y arr IH]; cbn; [done|].
  destruct (f y); by constructor.
Qed.

Lemma js_filter_app f arr1 arr2 :
  JS.filter f (arr1 ++ arr2) = JS.filter f arr1 ++ JS.filter f arr2.
Proof.
  induction arr1 as [|y arr1 IH]; cbn; [done|]. rewrite IH. by destruct (f y).
Qed.

End Filter.

(** C5, as stated, fails: the filter of [renderHeadings] does not look at
    any offset.  A heading on line 0 whose offset is 100 is kept at
    [scrollTop = 5], although its offset exceeds [5 + 0]. *)
Lemma validHeadings_ignores_offsets :
  ¬ ∀ (positioned : list Positioned) (scrollTop band : Z),
      validHeadings (ph_heading <$> positioned) scrollTop
      = ph_heading <$> passed_by_offset positioned scrollTop band.
Proof.
  intros Hclaim.
  specialize (Hclaim [{| ph_heading := Hdg 1 "A" 0; ph_offset := 100 |}] 5%Z 0%Z).
  discriminate Hclaim.
Qed.

(** C5, amended.  The filter of [renderHeadings] keeps exactly the headings
    whose last line, plus one, is at most [scrollTop]; each heading is
    tested on its own, so the result on an array in two parts is made of
    the results on the parts, and the order of the array is kept. *)
Theorem validHeadings_spec (headings : list Heading) (scrollTop : Z) :
  (∀ h, h ∈ validHeadings headings scrollTop
        ↔ h ∈ headings ∧ (line (end_ (position h)) + 1 ≤ scrollTop)%Z)
  ∧ validHeadings headings scrollTop `sublist_of` headings
  ∧ ∀ before after, headings = before ++ after →
      validHeadings headings scrollTop
      = validHeadings before scrollTop ++ validHeadings after scrollTop.
Proof.
  split; [|split].
  - intros h. unfold validHeadings. rewrite js_filter_elem_of.
    by rewrite Z.leb_le.
  - apply js_filter_sublist.
  - intros before after ->. apply js_filter_app.
Qed.

Lemma validHeadings_spec_witness :
  scenario = [Hdg 1 "A" 0; Hdg 2 "A.1" 1] ++ [Hdg 2 "A.2" 2; Hdg 1 "B" 3]
  ∧ validHeadings scenario 3
    = validHeadings [Hdg 1 "A" 0; Hdg 2 "A.1" 1] 3
      ++ validHeadings [Hdg 2 "A.2" 2; Hdg 1 "B" 3] 3.
Proof.
  split; [reflexivity|].
  apply (proj2 (proj2 (validHeadings_spec scenario 3))). reflexivity.
Defined.

(** ** The offsets of the headings *)

Section Offsets.
Implicit Types (blocks before after : list RenderedSection) (block : RenderedSection).
Implicit Types (headings : list Heading) (view : MarkdownView) (sum : Z).

Lemma scan_sections sum blocks (recorded : list Z) :
  foldl scan_section (recorded, sum) blocks
  = (recorded ++ block_offsets sum blocks, (sum + heights blocks)%Z).
Proof.
  revert sum recorded. induction blocks as [|block blocks IH]; intros sum recorded.
  - cbn. by rewrite app_nil_r, Z.add_0_r.
  - cbn [foldl scan_section]. rewrite IH. cbn [block_offsets heights foldr].
    fold (heights blocks). unfold block_height at 2. f_equal.
    + destruct (isHeading (html block)); [|done].
      unfold JS.push. by rewrite <- app_assoc.
    + unfold block_height. lia.
Qed.

Lemma block_offsets_app sum before after :
  block_offsets sum (before ++ after)
  = block_offsets sum before ++ block_offsets (sum + heights before) after.
Proof.
  revert sum. induction before as [|block before IH]; intros sum.
  - cbn. by rewrite Z.add_0_r.
  - cbn [app block_offsets heights foldr]. fold (heights before).
    rewrite IH, <- app_assoc. do 3 f_equal. lia.
Qed.

Lemma block_offsets_length sum blocks :
  length (block_offsets sum blocks) = heading_blocks blocks.
Proof.
  unfold heading_blocks. revert sum.
  induction blocks as [|block blocks IH]; intros sum; [done|].
  cbn [block_offsets]. rewrite length_app, IH, filter_cons.
  destruct (isHeading (html block));
    [by rewrite decide_True|by rewrite decide_False].
Qed.

(** The offset recorded for a heading block is the sum of the heights of
    the blocks before it. *)
Lemma block_offsets_lookup before block after :
  isHeading (html block) = true →
  block_offsets 0 (before ++ block :: after) !! heading_blocks before
  = Some (heights before).
Proof.
  intros Hblock. rewrite block_offsets_app. cbn [block_offsets].
  rewrite Hblock, <- (block_offsets_length 0 before).
  rewrite lookup_app_r, Nat.sub_diag by done. done.
Qed.

Lemma preview_positioned headings view :
  getHeadingsWithOffsetPreview headings view
  = imap (λ index heading,
            {| ph_heading := heading;
               ph_offset := or_zero (block_offsets 0 (sections view) !! index) |})
      headings.
Proof.
  unfold getHeadingsWithOffsetPreview. by rewrite scan_sections.
Qed.

Lemma preview_lookup headings view i h :
  headings !! i = Some h →
  getHeadingsWithOffsetPreview headings view !! i
  = Some {| ph_heading := h;
            ph_offset := or_zero (block_offsets 0 (sections view) !! i) |}.
Proof.
  intros Hi. by rewrite preview_positioned, list_lookup_imap, Hi.
Qed.

Lemma preview_headings headings view :
  ph_heading <$> getHeadingsWithOffsetPreview headings view = headings.
Proof.
  rewrite preview_positioned. apply list_eq. intros i.
  rewrite list_lookup_fmap, list_lookup_imap. by destruct (headings !! i).
Qed.

Lemma source_from headings view (result : list Positioned) :
  Forall (has_block view) headings →
  foldl (source_heading view) (Resolved result) headings
  = Resolved (result ++ (source_positioned view <$> headings)).
Proof.
  intros Hblocks. revert result.
  induction Hblocks as [|h headings [block Hblock] _ IH]; intros result.
  - cbn. by rewrite app_nil_r.
  - cbn [foldl source_heading]. rewrite Hblock. cbn [fmap list_fmap].
    rewrite IH. unfold JS.push, source_positioned, line_top.
    rewrite Hblock. cbn. by rewrite <- app_assoc.
Qed.

Lemma source_resolved headings view :
  Forall (has_block view) headings →
  getHeadingsWithOffsetSource headings view
  = Resolved (source_positioned view <$> headings).
Proof. intros Hblocks. by apply (source_from headings view []). Qed.

End Offsets.

(** C6. The preview strategy returns one positioned heading per heading,
    in the order of the headings.  The offset of heading number [i] is the
    sum of the heights of the blocks strictly before heading block number
    [i], and 0 when fewer than [i + 1] heading blocks are rendered. *)
Theorem preview_offsets (headings : list Heading) (view : MarkdownView) :
  ph_heading <$> getHeadingsWithOffsetPreview headings view = headings
  ∧ (∀ i h before block after,
       headings !! i = Some h →
       sections view = before ++ block :: after →
       isHeading (html block) = true →
       heading_blocks before = i →
       getHeadingsWithOffsetPreview headings view !! i
       = Some {| ph_heading := h; ph_offset := heights before |})
  ∧ (∀ i h,
       headings !! i = Some h →
       heading_blocks (sections view) ≤ i →
       getHeadingsWithOffsetPreview headings view !! i
       = Some {| ph_heading := h; ph_offset := 0 |}).
Proof.
  split; [apply preview_headings|]. split.
  - intros i h before block after Hi Hview Hblock <-.
    rewrite (preview_lookup _ _ _ _ Hi), Hview.
    by rewrite block_offsets_lookup, or_zero_Some.
  - intros i h Hi Hfew. rewrite (preview_lookup _ _ _ _ Hi).
    rewrite (lookup_ge_None_2 (block_offsets _ _)); [done|].
    by rewrite block_offsets_length.
Qed.

Lemma preview_offsets_witness :
  (scenario !! 1 = Some (Hdg 2 "A.1" 1)
   ∧ sections preview_view
     = [ {| html := "<p>intro</p>"; height := Some 10%Z |};
         {| html := "<h1>A</h1>"; height := Some 20%Z |};
         {| html := "<div>"; height := None |} ]
       ++ {| html := "<H2 id=x>A.1</H2>"; height := Some 5%Z |} :: []
   ∧ isHeading "<H2 id=x>A.1</H2>" = true
   ∧ getHeadingsWithOffsetPreview scenario preview_view !! 1
     = Some {| ph_heading := Hdg 2 "A.1" 1; ph_offset := 30 |})
  ∧ (scenario !! 2 = Some (Hdg 2 "A.2" 2)
     ∧ heading_blocks (sections preview_view) ≤ 2
     ∧ getHeadingsWithOffsetPreview scenario preview_view !! 2
       = Some {| ph_heading := Hdg 2 "A.2" 2; ph_offset := 0 |}).
Proof.
  destruct (preview_offsets scenario preview_view) as (_ & Hblock & Hnone).
  split.
  - split; [reflexivity|]. split; [reflexivity|]. split; [reflexivity|].
    exact (Hblock 1 (Hdg 2 "A.1" 1)
             [ {| html := "<p>intro</p>"; height := Some 10%Z |};
               {| html := "<h1>A</h1>"; height := Some 20%Z |};
               {| html := "<div>"; height := None |} ]
             {| html := "<H2 id=x>A.1</H2>"; height := Some 5%Z |} []
             eq_refl eq_refl eq_refl eq_refl).
  - split; [reflexivity|]. split; [vm_compute; lia|].
    apply (Hnone 2 (Hdg 2 "A.2" 2) eq_refl). vm_compute. lia.
Defined.

(** C7, as stated, fails in the source strategy, twice.  On a view whose
    [lineBlockAt] yields no block the call throws instead of returning;
    and where it returns, the offset of a heading whose line block has no
    [top] is the [offsetTop] of the content container, here 50, not 0. *)
Lemma source_resolution_fails :
  getHeadingsWithOffsetSource scenario no_block_view = TypeError
  ∧ ¬ ∀ (headings : list Heading) (view : MarkdownView) positioned i h,
        getHeadingsWithOffsetSource headings view = Resolved positioned →
        headings !! i = Some h →
        line_top view h = None →
        ph_offset <$> positioned !! i = Some 0%Z.
Proof.
  split; [reflexivity|]. intros Hclaim.
  specialize (Hclaim scenario source_view _ 0 (Hdg 1 "A" 0) eq_refl eq_refl eq_refl).
  discriminate Hclaim.
Qed.

(** C7, amended.  On a view whose [lineBlockAt] yields a block for every
    heading, the source strategy returns one positioned heading per
    heading, in the order of the headings; the offset is the [top] of the
    line block of the heading, 0 if it has none, plus the [offsetTop] of
    the content container, 0 if there is none: without a [top] the offset
    is that of the container.  On every view the preview strategy returns
    one positioned heading per heading, in the order of the headings, and
    a heading without a rendered heading block has offset 0. *)
Theorem offsets_resolved (headings : list Heading) (view : MarkdownView) :
  (Forall (has_block view) headings →
   ∃ positioned,
     getHeadingsWithOffsetSource headings view = Resolved positioned
     ∧ getHeadingsWithOffset true headings view = Resolved positioned
     ∧ ph_heading <$> positioned = headings
     ∧ ∀ i h block,
         headings !! i = Some h →
         lineBlockAt view (offset (start (position h))) = Some block →
         positioned !! i
         = Some {| ph_heading := h;
                   ph_offset :=
                     match top block with
                     | Some y => (y + or_zero (contentContainer view))%Z
                     | None => or_zero (contentContainer view)
                     end |})
  ∧ getHeadingsWithOffset false headings view
    = Resolved (getHeadingsWithOffsetPreview headings view)
  ∧ ph_heading <$> getHeadingsWithOffsetPreview headings view = headings
  ∧ (∀ i h,
       headings !! i = Some h →
       heading_blocks (sections view) ≤ i →
       getHeadingsWithOffsetPreview headings view !! i
       = Some {| ph_heading := h; ph_offset := 0 |}).
Proof.
  split; [|split; [done|split; [apply preview_headings|apply preview_offsets]]].
  intros Hblocks. exists (source_positioned view <$> headings).
  pose proof (source_resolved headings view Hblocks) as Hsource.
  split; [done|]. split; [done|]. split.
  - rewrite <- list_fmap_compose. apply list_fmap_id.
  - intros i h block Hi Hblock. rewrite list_lookup_fmap, Hi. cbn.
    unfold source_positioned, line_top. rewrite Hblock. cbn.
    by destruct (top block).
Qed.

Lemma source_view_blocks : Forall (has_block source_view) scenario.
Proof. repeat constructor; by eexists. Defined.

Lemma offsets_resolved_witness :
  Forall (has_block source_view) scenario
  ∧ ∃ positioned,
      getHeadingsWithOffsetSource scenario source_view = Resolved positioned
      ∧ positioned !! 0 = Some {| ph_heading := Hdg 1 "A" 0; ph_offset := 50 |}.
Proof.
  split; [exact source_view_blocks|].
  destruct (proj1 (offsets_resolved scenario source_view) source_view_blocks)
    as (positioned & Hsource & _ & _ & Hoffset).
  exists positioned. split; [exact Hsource|].
  exact (Hoffset 0 (Hdg 1 "A" 0) {| top := None |} eq_refl eq_refl).
Defined.

(** * Further properties of the code *)

(** ** The collapse in one pass *)

Section OnePass.
Implicit Types (l pre post subHeadings result out : list Heading) (h hj x : Heading).
Implicit Types (t : Z) (fuel : nat) (mode : Mode).

Lemma keeps_spec mode h x : keeps mode h x = true ↔ level_order mode h x.
Proof. destruct mode; cbn; [apply Z.leb_le|apply Z.ltb_lt]. Qed.

Lemma forallb_keeps mode h l :
  forallb (keeps mode h) l = true ↔ Forall (level_order mode h) l.
Proof.
  induction l as [|x l IH]; cbn.
  - split; [constructor|done].
  - rewrite andb_true_iff, Forall_cons, IH, keeps_spec. done.
Qed.

Lemma forallb_keeps_false mode h l x :
  x ∈ l → ¬ level_order mode h x → forallb (keeps mode h) l = false.
Proof.
  intros Hx Hnot. apply not_true_is_false. rewrite forallb_keeps, Forall_forall.
  intros Hall. by apply Hnot, Hall.
Qed.

(** The one pass over an array cut at the last heading of its least level
    [t]: before it, concise mode keeps nothing and default mode the
    headings of level [t]. *)
Lemma still_open_cut mode t pre hj post :
  Forall (λ h, (t ≤ level h)%Z) pre → level hj = t →
  Forall (λ h, (t < level h)%Z) post →
  still_open mode (pre ++ hj :: post)
  = match mode with
    | concise => []
    | default => filter (λ h, level h = t) pre
    end ++ hj :: still_open mode post.
Proof.
  intros Hpre Hlv Hpost. induction Hpre as [|p pre Hp Hpre IH].
  - cbn [app still_open]. rewrite (proj2 (forallb_keeps mode hj post)).
    + by destruct mode.
    + eapply Forall_impl; [exact Hpost|]. intros x Hx. cbn in Hx. destruct mode; cbn; lia.
  - cbn [app still_open]. rewrite IH. destruct mode.
    + destruct (decide (level p = t)) as [Heq|Hne].
      * rewrite filter_cons_True by done.
        rewrite (proj2 (forallb_keeps default p _)); [done|].
        apply Forall_app. split; [|constructor].
        -- eapply Forall_impl; [exact Hpre|]. intros x Hx. cbn in Hx |- *. lia.
        -- cbn. lia.
        -- eapply Forall_impl; [exact Hpost|]. intros x Hx. cbn in Hx |- *. lia.
      * rewrite filter_cons_False by done.
        rewrite (forallb_keeps_false default p _ hj); [done| |cbn; lia].
        apply elem_of_app. right. left.
    + rewrite (forallb_keeps_false concise p _ hj); [done| |cbn; lia].
      apply elem_of_app. right. left.
Qed.

Lemma post_deeper subHeadings pre hj post :
  subHeadings = pre ++ hj :: post →
  Forall (λ h, level h ≠ topLevel subHeadings) post →
  Forall (λ h, (topLevel subHeadings ≤ level h)%Z) pre
  ∧ Forall (λ h, (topLevel subHeadings < level h)%Z) post.
Proof.
  intros Hsub Hpost. pose proof (topLevel_lower_bound subHeadings) as Hlow.
  rewrite Forall_forall in Hlow, Hpost. split; apply Forall_forall; intros h Hh.
  - apply Hlow. rewrite Hsub. apply elem_of_app. by left.
  - assert (Hin : h ∈ subHeadings).
    { rewrite Hsub. apply elem_of_app. right. by right. }
    specialize (Hlow h Hin). specialize (Hpost h Hh). lia.
Qed.

Lemma still_open_split subHeadings pre hj post mode :
  subHeadings = pre ++ hj :: post →
  level hj = topLevel subHeadings →
  Forall (λ h, level h ≠ topLevel subHeadings) post →
  still_open mode subHeadings = emitted subHeadings mode ++ still_open mode post.
Proof.
  intros Hsub Hlv Hpost.
  destruct (post_deeper _ _ _ _ Hsub Hpost) as (Hlow & Hdeep).
  destruct (step_split _ _ _ _ Hsub Hlv Hpost) as (_ & _ & Hc & Hd).
  unfold emitted. rewrite Hsub at 1.
  rewrite (still_open_cut mode (topLevel subHeadings)) by done.
  destruct mode; rewrite ?Hc, ?Hd; cbn; by rewrite <- ?app_assoc.
Qed.

(** On levels of at most 6 the recursion of [trivial] computes the one pass. *)
Lemma collapse_still_open subHeadings mode :
  Forall (λ h, (level h ≤ 6)%Z) subHeadings →
  collapse subHeadings mode = still_open mode subHeadings.
Proof.
  remember (length subHeadings) as n eqn:Hn.
  revert subHeadings Hn. induction (lt_wf n) as [n _ IH].
  intros subHeadings -> Hall.
  destruct subHeadings as [|h0 l] eqn:Heq; [done|]. rewrite <- Heq in *.
  destruct (split_at_top subHeadings h0) as (pre & hj & post & Hsub & Hlv & Hpost).
  { rewrite Heq. left. } { rewrite Heq in Hall. by inversion Hall. }
  rewrite (collapse_split _ _ _ _ mode Hsub Hlv Hpost Hall).
  rewrite (still_open_split _ _ _ _ mode Hsub Hlv Hpost). f_equal.
  apply (IH (length post)); [|done|].
  - rewrite Hsub, length_app. cbn. lia.
  - rewrite Hsub in Hall. apply Forall_app in Hall as [_ Hall]. by inversion Hall.
Qed.

Lemma still_open_last mode l : last (still_open mode l) = last l.
Proof.
  induction l as [|h l IH]; [done|]. cbn [still_open].
  destruct (forallb (keeps mode h) l) eqn:Hkept.
  - by rewrite !last_cons, IH.
  - rewrite IH. destruct l as [|h' l]; [done|]. by rewrite last_cons_cons.
Qed.

Lemma still_open_concise_default l :
  still_open concise l `sublist_of` still_open default l.
Proof.
  induction l as [|h l IH]; [done|]. cbn [still_open].
  destruct (forallb (keeps concise h) l) eqn:Hc.
  - rewrite (proj2 (forallb_keeps default h l)); [by constructor|].
    apply forallb_keeps in Hc. eapply Forall_impl; [exact Hc|]. cbn.
    intros x Hx. lia.
  - destruct (forallb (keeps default h) l); [by constructor|done].
Qed.

Lemma still_open_sorted_id mode l :
  StronglySorted (level_order mode) l → still_open mode l = l.
Proof.
  induction 1 as [|h l _ IH Hall]; [done|]. cbn [still_open].
  by rewrite (proj2 (forallb_keeps mode h l)), IH.
Qed.

End OnePass.

(** ** When [trivial] returns, and what *)

Section Returns.
Implicit Types (l pre post subHeadings result out : list Heading) (h hj x : Heading).
Implicit Types (fuel : nat) (mode : Mode).

Lemma trivial_step fuel subHeadings result mode :
  subHeadings ≠ [] →
  trivial (S fuel) subHeadings result mode
  = trivial fuel (remainder subHeadings) (emit subHeadings result mode) mode.
Proof. by destruct subHeadings. Qed.

Lemma last_elem_of l h : last l = Some h → h ∈ l.
Proof. intros (l' & ->)%last_Some. apply elem_of_app. right. left. Qed.

Lemma ends_within_6_post pre hj post :
  ends_within_6 (pre ++ hj :: post) → post ≠ [] → ends_within_6 post.
Proof.
  intros Hends Hne h Hh. apply Hends.
  destruct post as [|x post]; [done|].
  by rewrite last_app_cons, last_cons_cons.
Qed.

(** The cut of an array that ends with a level of at most 6. *)
Lemma split_at_top_last subHeadings :
  subHeadings ≠ [] → ends_within_6 subHeadings →
  ∃ pre hj post, subHeadings = pre ++ hj :: post
    ∧ level hj = topLevel subHeadings
    ∧ Forall (λ h, level h ≠ topLevel subHeadings) post
    ∧ ends_within_6 post.
Proof.
  intros Hne Hends.
  destruct (last subHeadings) as [e|] eqn:Hlast; [|by apply last_None in Hlast].
  destruct (split_at_top subHeadings e) as (pre & hj & post & Hsub & Hlv & Hpost).
  { by apply last_elem_of. } { by apply Hends. }
  exists pre, hj, post. split; [done|]. split; [done|]. split; [done|].
  destruct post as [|x post]; [by intros h|].
  rewrite Hsub in Hends. by apply (ends_within_6_post pre hj).
Qed.

Lemma trivial_still_open fuel subHeadings mode :
  ends_within_6 subHeadings → length subHeadings < fuel →
  trivial fuel subHeadings [] mode = Returned (still_open mode subHeadings).
Proof.
  revert subHeadings.
  induction fuel as [|fuel IH]; intros subHeadings Hends Hlen; [lia|].
  destruct subHeadings as [|h0 l] eqn:Heq; [done|]. rewrite <- Heq in *.
  destruct (split_at_top_last subHeadings)
    as (pre & hj & post & Hsub & Hlv & Hpost & Hends'); [by rewrite Heq|done|].
  destruct (step_split _ _ _ _ Hsub Hlv Hpost) as (_ & Hrem & _).
  rewrite Heq at 1. cbn [trivial]. rewrite <- Heq.
  rewrite Hrem, trivial_onto, IH; [|done|].
  - cbn. by rewrite emit_app, (still_open_split _ _ _ _ mode Hsub Hlv Hpost).
  - rewrite Hsub, length_app in Hlen. cbn in Hlen. lia.
Qed.

(** An array that ends with a level above 6 exhausts every stack. *)
Lemma trivial_overflow fuel subHeadings result mode e :
  last subHeadings = Some e → (6 < level e)%Z →
  ∃ out, trivial fuel subHeadings result mode = Overflow out.
Proof.
  revert subHeadings result.
  induction fuel as [|fuel IH]; intros subHeadings result Hlast Hdeep.
  { by exists result. }
  assert (Hne : subHeadings ≠ []) by by intros ->.
  assert (Hnext : ∃ out,
    trivial fuel (remainder subHeadings) (emit subHeadings result mode) mode
    = Overflow out).
  { destruct (last_occurrence_split (topLevel subHeadings) subHeadings)
      as [Hnone|(pre & hj & post & Hsub & Hlv & Hpost)].
    - destruct (step_stuck _ Hnone) as (_ & -> & _). by apply IH.
    - destruct (step_split _ _ _ _ Hsub Hlv Hpost) as (_ & -> & _).
      apply IH; [|done]. pose proof (topLevel_le_6 subHeadings) as H6.
      destruct post as [|x post].
      + rewrite Hsub, last_snoc in Hlast. injection Hlast as ->. lia.
      + by rewrite Hsub, last_app_cons, last_cons_cons in Hlast. }
  destruct Hnext as (out & Hout). exists out. by rewrite trivial_step.
Qed.

Lemma still_open_sublist mode l : still_open mode l `sublist_of` l.
Proof.
  induction l as [|h l IH]; [done|]. cbn [still_open].
  destruct (forallb (keeps mode h) l); by constructor.
Qed.

Lemma still_open_sorted mode l :
  StronglySorted (level_order mode) (still_open mode l).
Proof.
  induction l as [|h l IH]; [constructor|]. cbn [still_open].
  destruct (forallb (keeps mode h) l) eqn:Hkept; [|done].
  constructor; [done|]. apply forallb_keeps in Hkept.
  rewrite Forall_forall in Hkept. apply Forall_forall. intros x Hx.
  by apply Hkept, (sublist_subseteq _ _ (still_open_sublist mode l)).
Qed.

Lemma emitted_concise_default subHeadings :
  emitted subHeadings concise `sublist_of` emitted subHeadings default.
Proof.
  destruct (last_occurrence_split (topLevel subHeadings) subHeadings)
    as [Hnone|(pre & hj & post & Hsub & Hlv & Hpost)].
  - destruct (step_stuck _ Hnone) as (_ & _ & Hemit).
    unfold emitted. by rewrite !Hemit.
  - destruct (step_split _ _ _ _ Hsub Hlv Hpost) as (_ & _ & Hc & Hd).
    unfold emitted. rewrite Hc, Hd. cbn. by apply sublist_inserts_l.
Qed.

(** Levels that increase strictly within [a, b] are at most [b + 1 - a]. *)
Lemma increasing_within_length (a b : Z) (zs : list Z) :
  StronglySorted Z.lt zs → Forall (λ z, (a ≤ z ≤ b)%Z) zs →
  length zs ≤ Z.to_nat (b + 1 - a).
Proof.
  intros Hsorted. revert a.
  induction Hsorted as [|z zs _ IH Hall]; intros a Hrange; cbn; [lia|].
  apply Forall_cons in Hrange as [Hz Hrange].
  assert (Hlen : length zs ≤ Z.to_nat (b + 1 - (z + 1))).
  { apply IH. rewrite Forall_forall in Hall, Hrange. apply Forall_forall.
    intros y Hy. specialize (Hall y Hy). specialize (Hrange y Hy). lia. }
  lia.
Qed.

End Returns.

(** X1. Whenever the last heading of the array has a level of at most 6,
    every run of [trivial] with a stack deeper than the array is long
    returns, and what it has appended is the one pass [still_open]: in
    concise mode the headings that every later heading is strictly deeper
    than, in default mode those that no later heading is shallower than. *)
Theorem trivial_one_pass (fuel : nat) (subHeadings result : list Heading)
    (mode : Mode) :
  ends_within_6 subHeadings → length subHeadings < fuel →
  trivial fuel subHeadings result mode
  = Returned (result ++ still_open mode subHeadings).
Proof.
  intros Hends Hlen. by rewrite trivial_onto, trivial_still_open.
Qed.

Lemma scenario_ends_within_6 : ends_within_6 scenario.
Proof. intros h Hh. injection Hh as <-. cbn. lia. Defined.

Lemma trivial_one_pass_witness :
  ends_within_6 scenario ∧ length scenario < 5
  ∧ trivial 5 scenario [] concise = Returned ([] ++ still_open concise scenario).
Proof.
  split; [exact scenario_ends_within_6|]. split; [cbn; lia|].
  apply (trivial_one_pass 5 scenario [] concise scenario_ends_within_6).
  cbn. lia.
Defined.

(** X2. [trivial] returns for some depth of the stack exactly when the
    array is empty or its last heading has a level of at most 6; a stack
    one deeper than the array is long is then enough. *)
Theorem trivial_returns_iff (subHeadings result : list Heading) (mode : Mode) :
  (∃ fuel out, trivial fuel subHeadings result mode = Returned out)
  ↔ ends_within_6 subHeadings.
Proof.
  split.
  - intros (fuel & out & Hrun) e Hlast.
    destruct (Z.le_gt_cases (level e) 6) as [|Hdeep]; [done|].
    destruct (trivial_overflow fuel subHeadings result mode e) as (out' & Hover);
      [done|lia|congruence].
  - intros Hends. exists (S (length subHeadings)), (result ++ still_open mode subHeadings).
    rewrite trivial_onto, trivial_still_open; [done|done|lia].
Qed.

(** X3. Whenever [trivial] returns, the last heading it has pushed is the
    last heading of the array: the heading scrolled past most recently
    closes the stack, in both modes. *)
Theorem trivial_keeps_last (fuel : nat) (subHeadings out : list Heading)
    (mode : Mode) :
  trivial fuel subHeadings [] mode = Returned out →
  last out = last subHeadings.
Proof.
  intros Hrun.
  assert (Hends : ends_within_6 subHeadings).
  { intros e Hlast. destruct (Z.le_gt_cases (level e) 6) as [|Hdeep]; [done|].
    destruct (trivial_overflow fuel subHeadings [] mode e) as (out' & Hover);
      [done|lia|congruence]. }
  pose proof (trivial_still_open (S (fuel + length subHeadings)) subHeadings mode
                Hends ltac:(lia)) as Hpass.
  rewrite (trivial_fuel_mono _ _ _ _ _ _ Hrun) in Hpass by lia.
  injection Hpass as ->. apply still_open_last.
Qed.

Lemma trivial_keeps_last_witness :
  trivial 5 scenario [] default = Returned [Hdg 1 "A" 0; Hdg 1 "B" 3]
  ∧ last [Hdg 1 "A" 0; Hdg 1 "B" 3] = last scenario.
Proof.
  split; [reflexivity|].
  apply (trivial_keeps_last 5 scenario _ default). reflexivity.
Defined.

(** X4. At every depth of the stack and on every array, what [trivial] has
    pushed in concise mode is a sublist of what it has pushed in default
    mode. *)
Theorem concise_within_default (fuel : nat) (subHeadings : list Heading) :
  pushed (trivial fuel subHeadings [] concise)
  `sublist_of` pushed (trivial fuel subHeadings [] default).
Proof.
  revert subHeadings. induction fuel as [|fuel IH]; intros subHeadings; [done|].
  destruct subHeadings as [|h l] eqn:Heq; [done|]. cbn [trivial].
  rewrite <- Heq. rewrite (trivial_onto _ _ (emit _ _ concise)).
  rewrite (trivial_onto _ _ (emit _ _ default)).
  assert (Hpushed : ∀ result r, pushed (onto result r) = result ++ pushed r)
    by by intros ? [].
  rewrite !Hpushed. apply sublist_app; [|apply IH].
  apply emitted_concise_default.
Qed.

(** X5. Running [trivial] on what it has returned gives the same stack
    again. *)
Theorem trivial_idempotent (fuel : nat) (subHeadings out : list Heading)
    (mode : Mode) :
  length subHeadings < fuel →
  trivial fuel subHeadings [] mode = Returned out →
  trivial fuel out [] mode = Returned out.
Proof.
  intros Hlen Hrun.
  assert (Hends : ends_within_6 subHeadings).
  { intros e Hlast. destruct (Z.le_gt_cases (level e) 6) as [|Hdeep]; [done|].
    destruct (trivial_overflow fuel subHeadings [] mode e) as (out' & Hover);
      [done|lia|congruence]. }
  rewrite trivial_still_open in Hrun by done. injection Hrun as <-.
  pose proof (still_open_sublist mode subHeadings) as Hsub%sublist_length.
  rewrite trivial_still_open.
  - by rewrite (still_open_sorted_id _ _ (still_open_sorted mode subHeadings)).
  - intros e. rewrite still_open_last. apply Hends.
  - lia.
Qed.

Lemma trivial_idempotent_witness :
  length scenario < 5
  ∧ trivial 5 scenario [] default = Returned [Hdg 1 "A" 0; Hdg 1 "B" 3]
  ∧ trivial 5 [Hdg 1 "A" 0; Hdg 1 "B" 3] [] default
    = Returned [Hdg 1 "A" 0; Hdg 1 "B" 3].
Proof.
  split; [cbn; lia|]. split; [reflexivity|].
  apply (trivial_idempotent 5 scenario _ default); [cbn; lia|reflexivity].
Defined.

(** X6. On levels within [1,6], concise mode never shows more than six
    headings, however long the array. *)
Theorem concise_at_most_six (fuel : nat) (subHeadings : list Heading) :
  Forall in_range subHeadings → length subHeadings < fuel →
  ∃ out, trivial fuel subHeadings [] concise = Returned out ∧ length out ≤ 6.
Proof.
  intros Hrange Hlen. exists (still_open concise subHeadings). split.
  - apply trivial_still_open; [|done]. intros e He%last_elem_of.
    rewrite Forall_forall in Hrange. destruct (Hrange e He). done.
  - rewrite <- (length_fmap level).
    apply (increasing_within_length 1 6).
    + apply (StronglySorted_fmap level (level_order concise)); [done|].
      apply still_open_sorted.
    + apply Forall_fmap. apply Forall_forall. intros h Hh.
      rewrite Forall_forall in Hrange. apply Hrange.
      by apply (sublist_subseteq _ _ (still_open_sublist concise subHeadings)).
Qed.

Lemma concise_at_most_six_witness :
  Forall in_range scenario ∧ length scenario < 5
  ∧ ∃ out, trivial 5 scenario [] concise = Returned out ∧ length out ≤ 6.
Proof.
  split; [exact scenario_in_range|]. split; [cbn; lia|].
  apply (concise_at_most_six 5 scenario scenario_in_range). cbn. lia.
Defined.

(** ** What [renderHeadings] shows *)

Section Shown.
Implicit Types (l headings final : list Heading) (settings : ISetting).
Implicit Types (fuel : nat) (scrollTop n : Z).

Lemma truncate_sublist n l : truncate n l `sublist_of` l.
Proof.
  unfold truncate. destruct (truthy n); [|done]. cbn. apply sublist_drop.
Qed.

Lemma truncate_nil n : truncate n [] = [].
Proof. unfold truncate. destruct (truthy n); [|done]. cbn. apply drop_nil. Qed.

Lemma last_drop_lt {A} (l : list A) k : k < length l → last (drop k l) = last l.
Proof.
  intros Hk. rewrite <- (take_drop k l) at 2.
  destruct (drop k l) as [|x l'] eqn:Hdrop.
  - apply (f_equal length) in Hdrop. rewrite length_drop in Hdrop. cbn in Hdrop. lia.
  - by rewrite last_app_cons.
Qed.

(** A limit that is not negative keeps the last heading. *)
Lemma truncate_last n l : (0 ≤ n)%Z → last (truncate n l) = last l.
Proof.
  intros Hn. destruct (decide (n = 0%Z)) as [->|Hne]; [done|].
  rewrite truncate_positive by lia. destruct l as [|x l]; [done|].
  apply last_drop_lt. cbn. lia.
Qed.

Lemma validHeadings_none headings scrollTop :
  Forall (λ h, (scrollTop < line (end_ (position h)) + 1)%Z) headings →
  validHeadings headings scrollTop = [].
Proof.
  induction 1 as [|h l Hh _ IH]; [done|]. unfold validHeadings in *. cbn.
  rewrite IH. by destruct (Z.leb_spec (line (end_ (position h)) + 1) scrollTop); [lia|].
Qed.

(** In the order of the document the headings scrolled past are the first
    headings. *)
Lemma validHeadings_take headings scrollTop :
  document_order headings →
  validHeadings headings scrollTop
  = take (length (validHeadings headings scrollTop)) headings.
Proof.
  induction 1 as [|h l _ IH Hall]; [done|]. unfold validHeadings in *. cbn.
  destruct (Z.leb_spec (line (end_ (position h)) + 1) scrollTop) as [Hle|Hgt].
  - cbn. by rewrite <- IH.
  - fold (validHeadings l scrollTop). rewrite validHeadings_none; [done|].
    eapply Forall_impl; [exact Hall|]. intros x Hx. cbn in Hx. lia.
Qed.

(** [arr.slice(0, k)] for a [k] that is not negative keeps the first [k]. *)
Lemma slice_0_take {A} (arr : list A) (k : nat) :
  JS.slice arr 0 (Z.of_nat k) = take k arr.
Proof.
  unfold JS.slice, JS.relative_index.
  destruct (Z.ltb_spec (Z.of_nat k) 0) as [?|_]; [lia|]. cbn [Z.ltb Z.compare].
  rewrite (Z.min_l 0) by lia. cbn [Z.to_nat]. rewrite Nat.sub_0_r, drop_0.
  destruct (Z.min_spec (Z.of_nat k) (Z.of_nat (length arr))) as [[_ ->]|[Hge ->]].
  - by rewrite Nat2Z.id.
  - rewrite Nat2Z.id, !take_ge; [done|lia|lia].
Qed.

Lemma finalHeadings_run settings fuel headings scrollTop :
  0 < fuel →
  finalHeadings settings fuel headings scrollTop
  = match trivial fuel (validHeadings headings scrollTop) [] (mode settings) with
    | Returned final => Returned (truncate (max settings) final)
    | Overflow final => Overflow final
    end.
Proof.
  intros Hfuel. unfold finalHeadings.
  destruct (validHeadings headings scrollTop); [|done].
  by destruct fuel; [lia|].
Qed.

End Shown.

(** X7. Whatever the settings, the scroll position and the depth of the
    stack, the headings [renderHeadings] has in [finalHeadings] form a
    sublist of the headings of the document: none is made up, none is out
    of order. *)
Theorem finalHeadings_sublist (settings : ISetting) (fuel : nat)
    (headings : list Heading) (scrollTop : Z) :
  pushed (finalHeadings settings fuel headings scrollTop) `sublist_of` headings.
Proof.
  transitivity (validHeadings headings scrollTop); [|apply js_filter_sublist].
  unfold finalHeadings.
  destruct (validHeadings headings scrollTop) as [|h l] eqn:Hvalid.
  { cbn. by rewrite truncate_nil. }
  rewrite <- Hvalid.
  pose proof (trivial_sublist fuel (validHeadings headings scrollTop)
                (mode settings)) as Hsub.
  destruct (trivial _ _ _ _) as [final|final]; cbn in *; [|done].
  by transitivity final; [apply truncate_sublist|].
Qed.

(** X8. While no heading has been scrolled past, [renderHeadings] shows
    nothing, whatever the mode and [max], and without any call of
    [trivial]: a stack of depth 0 is enough. *)
Theorem finalHeadings_before_first (settings : ISetting) (fuel : nat)
    (headings : list Heading) (scrollTop : Z) :
  Forall (λ h, (scrollTop < line (end_ (position h)) + 1)%Z) headings →
  finalHeadings settings fuel headings scrollTop = Returned [].
Proof.
  intros Hnone. unfold finalHeadings. rewrite validHeadings_none by done.
  by rewrite truncate_nil.
Qed.

Lemma finalHeadings_before_first_witness :
  Forall (λ h, (0 < line (end_ (position h)) + 1)%Z) scenario
  ∧ finalHeadings {| mode := concise; max := -2 |} 0 scenario 0 = Returned [].
Proof.
  assert (Hnone : Forall (λ h, (0 < line (end_ (position h)) + 1)%Z) scenario)
    by (repeat constructor; cbn; lia).
  split; [exact Hnone|]. by apply finalHeadings_before_first.
Defined.

(** X9. With a [max] that is not negative, and the last heading scrolled
    past of a level of at most 6, [renderHeadings] returns a stack that
    ends with the last heading scrolled past, in both modes and however
    small [max]. *)
Theorem finalHeadings_keeps_last (settings : ISetting) (fuel : nat)
    (headings : list Heading) (scrollTop : Z) :
  (0 ≤ max settings)%Z →
  ends_within_6 (validHeadings headings scrollTop) →
  length headings < fuel →
  ∃ final, finalHeadings settings fuel headings scrollTop = Returned final
    ∧ last final = last (validHeadings headings scrollTop).
Proof.
  intros Hmax Hends Hlen. rewrite finalHeadings_run by lia.
  pose proof (js_filter_sublist
    (λ heading, (line (end_ (position heading)) + 1 <=? scrollTop)%Z) headings)
    as Hvalid%sublist_length.
  rewrite trivial_still_open; [|done|unfold validHeadings; lia].
  eexists. split; [done|]. by rewrite truncate_last, still_open_last.
Qed.

Lemma finalHeadings_keeps_last_witness :
  (0 ≤ 1)%Z ∧ ends_within_6 (validHeadings scenario 3) ∧ length scenario < 5
  ∧ ∃ final,
      finalHeadings {| mode := default; max := 1 |} 5 scenario 3 = Returned final
      ∧ last final = last (validHeadings scenario 3).
Proof.
  assert (Hends : ends_within_6 (validHeadings scenario 3)).
  { intros h Hh. injection Hh as <-. cbn. lia. }
  split; [lia|]. split; [exact Hends|]. split; [cbn; lia|].
  apply (finalHeadings_keeps_last {| mode := default; max := 1 |} 5 scenario 3);
    [cbn; lia|exact Hends|cbn; lia].
Defined.

(** X10. When the headings come in the order of the document, the
    headings scrolled past are a prefix of them, whatever the scroll
    position. *)
Theorem validHeadings_prefix (headings : list Heading) (scrollTop : Z) :
  document_order headings →
  validHeadings headings scrollTop `prefix_of` headings.
Proof.
  intros Horder. rewrite validHeadings_take by done. apply prefix_take.
Qed.

Lemma scenario_document_order : document_order scenario.
Proof. repeat constructor; cbn; lia. Defined.

Lemma validHeadings_prefix_witness :
  document_order scenario ∧ validHeadings scenario 2 `prefix_of` scenario.
Proof.
  split; [exact scenario_document_order|].
  exact (validHeadings_prefix scenario 2 scenario_document_order).
Defined.

(** X11. When the headings come in the order of the document and [max] is
    0, [renderHeadings] has in [finalHeadings] what the function made by
    [makeExpectedHeadings] returns at the number of headings scrolled
    past. *)
Theorem finalHeadings_expected (headings : list Heading) (n : Z) (m : Mode)
    (fuel : nat) (scrollTop : Z) :
  document_order headings → 0 < fuel →
  finalHeadings {| mode := m; max := 0 |} fuel headings scrollTop
  = makeExpectedHeadings headings n m fuel
      (Z.of_nat (length (validHeadings headings scrollTop))).
Proof.
  intros Horder Hfuel. rewrite finalHeadings_run by done.
  unfold makeExpectedHeadings. cbn [mode max].
  rewrite slice_0_take, <- validHeadings_take by done.
  by destruct (trivial _ _ _ _).
Qed.

Lemma finalHeadings_expected_witness :
  document_order scenario ∧ 0 < 5
  ∧ finalHeadings {| mode := concise; max := 0 |} 5 scenario 3
    = makeExpectedHeadings scenario 4 concise 5
        (Z.of_nat (length (validHeadings scenario 3))).
Proof.
  split; [exact scenario_document_order|]. split; [lia|].
  apply (finalHeadings_expected scenario 4 concise 5 3 scenario_document_order).
  lia.
Defined.

(** ** The order of the offsets of the preview *)

Section OffsetOrder.
Implicit Types (blocks : list RenderedSection) (sum : Z).

Lemma block_offsets_sorted sum blocks :
  Forall (λ block, (0 ≤ block_height block)%Z) blocks →
  Forall (λ o, (sum ≤ o)%Z) (block_offsets sum blocks)
  ∧ StronglySorted Z.le (block_offsets sum blocks).
Proof.
  intros Hpos. revert sum.
  induction Hpos as [|block blocks Hblock _ IH]; intros sum; cbn [block_offsets].
  { split; constructor. }
  destruct (IH (sum + block_height block)%Z) as (Hlow & Hsorted).
  assert (Hlow' : Forall (λ o, (sum ≤ o)%Z)
                    (block_offsets (sum + block_height block) blocks)).
  { eapply Forall_impl; [exact Hlow|]. intros o Ho. cbn in Ho. lia. }
  destruct (isHeading (html block)); cbn; [|done].
  split; constructor; [lia|done|done|done].
Qed.

Lemma sorted_lookup_le (zs : list Z) i j x y :
  StronglySorted Z.le zs → i ≤ j → zs !! i = Some x → zs !! j = Some y →
  (x ≤ y)%Z.
Proof.
  intros Hsorted. revert i j.
  induction Hsorted as [|z zs _ IH Hall]; intros i j Hij Hi Hj; [done|].
  destruct i as [|i], j as [|j]; cbn in Hi, Hj; [|..|lia|].
  - simplify_eq. lia.
  - simplify_eq. rewrite Forall_forall in Hall. apply Hall.
    by apply list_elem_of_lookup_2 in Hj.
  - apply (IH i j); [lia|done|done].
Qed.

End OffsetOrder.

(** X12. When no rendered block has a negative height, the offsets that
    the preview strategy gives to the headings that have a rendered
    heading block are not negative and never decrease from a heading to a
    later one. *)
Theorem preview_offsets_monotone (headings : list Heading) (view : MarkdownView)
    (i j : nat) (pi pj : Positioned) :
  Forall (λ block, (0 ≤ block_height block)%Z) (sections view) →
  i ≤ j → j < heading_blocks (sections view) →
  getHeadingsWithOffsetPreview headings view !! i = Some pi →
  getHeadingsWithOffsetPreview headings view !! j = Some pj →
  (0 ≤ ph_offset pi ≤ ph_offset pj)%Z.
Proof.
  intros Hpos Hij Hj Hpi Hpj.
  destruct (block_offsets_sorted 0 (sections view) Hpos) as (Hlow & Hsorted).
  destruct (headings !! i) as [hi|] eqn:Hhi;
    [|by rewrite preview_positioned, list_lookup_imap, Hhi in Hpi].
  destruct (headings !! j) as [hj|] eqn:Hhj;
    [|by rewrite preview_positioned, list_lookup_imap, Hhj in Hpj].
  rewrite (preview_lookup _ _ _ _ Hhi) in Hpi.
  rewrite (preview_lookup _ _ _ _ Hhj) in Hpj.
  rewrite <- (block_offsets_length 0) in Hj.
  destruct (lookup_lt_is_Some_2 (block_offsets 0 (sections view)) i) as (oi & Hoi);
    [lia|].
  destruct (lookup_lt_is_Some_2 (block_offsets 0 (sections view)) j) as (oj & Hoj);
    [lia|].
  rewrite Hoi in Hpi. rewrite Hoj in Hpj.
  injection Hpi as <-. injection Hpj as <-. cbn [ph_offset].
  change (0 ≤ or_zero (Some oi) ≤ or_zero (Some oj))%Z.
  rewrite !or_zero_Some. split.
  - rewrite Forall_forall in Hlow. apply Hlow.
    by apply list_elem_of_lookup_2 in Hoi.
  - by apply (sorted_lookup_le _ i j _ _ Hsorted).
Qed.

Lemma preview_offsets_monotone_witness :
  Forall (λ block, (0 ≤ block_height block)%Z) (sections preview_view)
  ∧ 0 ≤ 1 ∧ 1 < heading_blocks (sections preview_view)
  ∧ (0 ≤ 10 ≤ 30)%Z.
Proof.
  assert (Hpos : Forall (λ block, (0 ≤ block_height block)%Z) (sections preview_view))
    by (repeat constructor; cbn; lia).
  assert (Hblocks : 1 < heading_blocks (sections preview_view))
    by (vm_compute; lia).
  split; [exact Hpos|]. split; [lia|]. split; [exact Hblocks|].
  exact (preview_offsets_monotone scenario preview_view 0 1
           {| ph_heading := Hdg 1 "A" 0; ph_offset := 10 |}
           {| ph_heading := Hdg 2 "A.1" 1; ph_offset := 30 |}
           Hpos ltac:(lia) Hblocks eq_refl eq_refl).
Defined.

(** ** The field of [max] *)

Section MaxField.

Lemma digit_value_pretty (k : N) :
  (k < 10)%N → digit_value (pretty_N_char k) = Some (Z.of_N k).
Proof.
  intros Hk.
  assert (Hcases : k ∈ [0; 1; 2; 3; 4; 5; 6; 7; 8; 9]%N).
  { rewrite !elem_of_cons. lia. }
  rewrite !elem_of_cons, elem_of_nil in Hcases.
  destruct Hcases as [->|[->|[->|[->|[->|[->|[->|[->|[->|[->|[]]]]]]]]]]];
    reflexivity.
Qed.

(** The numeral of a positive number starts with a digit and reads back as
    the number. *)
Lemma digits_prefix_pretty (x : N) :
  (0 < x)%N → ∀ s acc, JS.with_default 0%Z acc = 0%Z →
  digits_prefix (pretty_N_go x s) acc = digits_prefix s (Some (Z.of_N x))
  ∧ ∃ c rest, pretty_N_go x s = String c rest ∧ is_Some (digit_value c).
Proof.
  induction (N.lt_wf_0 x) as [x _ IH]. intros Hx s acc Hacc.
  rewrite pretty_N_go_step by done.
  assert (Hmod : (x `mod` 10 < 10)%N) by by apply N.mod_lt.
  pose proof (digit_value_pretty _ Hmod) as Hdigit.
  pose proof (N.div_mod x 10 ltac:(done)) as Hdiv.
  destruct (decide (x `div` 10 = 0)%N) as [Hzero|Hpos].
  - rewrite Hzero, pretty_N_go_0. cbn [digits_prefix]. rewrite Hdigit, Hacc.
    split; [do 2 f_equal; lia|]. eexists _, _. split; [done|]. by rewrite Hdigit.
  - destruct (IH (x `div` 10)%N) with
      (s := String (pretty_N_char (x `mod` 10)) s) (acc := acc)
      as (Hread & Hstart); [apply N.div_lt; lia|lia|done|].
    split; [|done]. rewrite Hread. cbn [digits_prefix]. rewrite Hdigit. cbn.
    do 2 f_equal. lia.
Qed.

Lemma sign_absent c (rest : string) :
  c ≠ "-"%char → c ≠ "+"%char →
  match String c rest with
  | String "-" digits => ((-1)%Z, digits)
  | String "+" digits => (1%Z, digits)
  | _ => (1%Z, String c rest)
  end = (1%Z, String c rest).
Proof.
  intros Hminus Hplus. by destruct c as [[] [] [] [] [] [] [] []].
Qed.

Lemma parseInt10_digit_start c rest :
  is_Some (digit_value c) →
  parseInt10 (String c rest) = digits_prefix (String c rest) None.
Proof.
  intros Hdigit. unfold parseInt10.
  assert (Htrim : trim_start (String c rest) = String c rest).
  { cbn. unfold digit_value, is_white_space in *.
    destruct (48 <=? nat_of_ascii c) eqn:Hlo; [|by destruct Hdigit].
    apply Nat.leb_le in Hlo.
    destruct (Nat.eqb_spec (nat_of_ascii c) 32) as [?|_]; [lia|].
    destruct (Nat.leb_spec (nat_of_ascii c) 13) as [?|_]; [lia|].
    by rewrite andb_false_r. }
  rewrite Htrim, sign_absent; [|intros ->; by destruct Hdigit..].
  destruct (digits_prefix (String c rest) None) as [n|]; [|done].
  cbn. f_equal. lia.
Qed.

Lemma parseInt10_pretty_pos (p : positive) :
  parseInt10 (pretty (N.pos p)) = Some (Z.pos p).
Proof.
  unfold pretty, pretty_N. rewrite decide_False by done.
  destruct (digits_prefix_pretty (N.pos p) ltac:(done) "" None eq_refl)
    as (Hread & c & rest & Hstart & Hdigit).
  rewrite Hstart, parseInt10_digit_start, <- Hstart, Hread by done. done.
Qed.

Lemma parseInt10_minus (digits : string) :
  parseInt10 (String "-" digits)
  = (λ n, -1 * n)%Z <$> digits_prefix digits None.
Proof. reflexivity. Qed.

Lemma parseInt10_numeral (n : Z) : or_zero (parseInt10 (pretty n)) = n.
Proof.
  unfold pretty, pretty_Z. destruct n as [|p|p]; [done|..].
  - unfold pretty, pretty_positive. by rewrite parseInt10_pretty_pos, or_zero_Some.
  - change ("-" +:+ pretty p) with (String "-" (pretty (N.pos p))).
    rewrite parseInt10_minus. unfold pretty, pretty_N.
    rewrite decide_False by done.
    destruct (digits_prefix_pretty (N.pos p) ltac:(done) "" None eq_refl)
      as (-> & _).
    cbn [digits_prefix fmap option_fmap option_map]. rewrite or_zero_Some. lia.
Qed.

End MaxField.

(** X13. Typing into the field of [max] the text that [display] shows
    there leaves the settings as they are, for every [max] that is a safe
    integer, negative ones included. *)
Theorem max_text_round_trip (settings : ISetting) :
  (Z.abs (max settings) ≤ MAX_SAFE_INTEGER)%Z →
  ∃ text, toString (max settings) = Some text
    ∧ onChange_max settings text = settings.
Proof.
  intros Hsafe. exists (pretty (max settings)). split.
  - unfold toString. by rewrite (proj2 (Z.leb_le _ _) Hsafe).
  - unfold onChange_max. rewrite parseInt10_numeral. by destruct settings.
Qed.

Lemma max_text_round_trip_witness :
  (Z.abs (-2) ≤ MAX_SAFE_INTEGER)%Z
  ∧ ∃ text, toString (-2) = Some text
      ∧ onChange_max {| mode := concise; max := -2 |} text
        = {| mode := concise; max := -2 |}.
Proof.
  assert (Hsafe : (Z.abs (-2) ≤ MAX_SAFE_INTEGER)%Z) by (vm_compute; discriminate).
  split; [exact Hsafe|].
  exact (max_text_round_trip {| mode := concise; max := -2 |} Hsafe).
Defined.

(** ** The cache of rendered texts *)

Section Cache.
Variable parseMarkdown : string → string.
Implicit Types (st : Drawn) (hs : list Heading) (h : Heading).
Implicit Types (cache : gmap string string).

Lemma draw_heading_hit st h v :
  markdownCache st !! heading h = Some v →
  draw_heading parseMarkdown st h
  = {| markdownCache := markdownCache st;
       items := items st ++ [(level h, v)];
       parsed := parsed st |}.
Proof. intros Hhit. unfold draw_heading. by rewrite Hhit. Qed.

Lemma draw_heading_miss st h :
  markdownCache st !! heading h = None →
  draw_heading parseMarkdown st h
  = {| markdownCache := <[heading h := parseMarkdown (heading h)]> (markdownCache st);
       items := items st ++ [(level h, parseMarkdown (heading h))];
       parsed := parsed st ++ [heading h] |}.
Proof. intros Hmiss. unfold draw_heading. by rewrite Hmiss. Qed.

(** What a run of the loop does to the cache and to the calls made. *)
Lemma draw_from st hs :
  let st' := foldl (draw_heading parseMarkdown) st hs in
  markdownCache st ⊆ markdownCache st'
  ∧ (∃ new, parsed st' = parsed st ++ new ∧ NoDup new
       ∧ ∀ k, k ∈ new → markdownCache st !! k = None)
  ∧ ∀ h, h ∈ hs → is_Some (markdownCache st' !! heading h).
Proof.
  revert st. induction hs as [|h hs IH]; intros st; cbn [foldl].
  { split; [done|]. split; [|by intros h ?%elem_of_nil].
    exists []. rewrite app_nil_r. split; [done|]. split; [constructor|].
    by intros k ?%elem_of_nil. }
  destruct (IH (draw_heading parseMarkdown st h)) as (Hsub & (new & Hnew & Hdup & Hfresh) & Hall).
  destruct (markdownCache st !! heading h) as [v|] eqn:Hlook.
  - rewrite (draw_heading_hit _ _ _ Hlook) in *. cbn in *.
    split; [done|]. split; [by exists new|].
    intros h' [->|Hin]%elem_of_cons; [|by apply Hall].
    exists v. by apply (lookup_weaken _ _ _ _ Hlook).
  - rewrite (draw_heading_miss _ _ Hlook) in *. cbn in *.
    assert (Hgrow : markdownCache st
                    ⊆ <[heading h := parseMarkdown (heading h)]> (markdownCache st))
      by by apply insert_subseteq.
    split; [by transitivity (<[heading h := parseMarkdown (heading h)]> (markdownCache st))|].
    split.
    + exists (heading h :: new). rewrite Hnew, <- app_assoc. split; [done|].
      split.
      * constructor; [|done]. intros Hin%Hfresh. by rewrite lookup_insert_eq in Hin.
      * intros k [->|Hin]%elem_of_cons; [done|].
        by apply (lookup_weaken_None _ _ _ (Hfresh k Hin)).
    + intros h' [->|Hin]%elem_of_cons; [|by apply Hall].
      exists (parseMarkdown (heading h)).
      apply (lookup_weaken _ _ _ _ (lookup_insert_eq _ _ _) Hsub).
Qed.

Lemma draw_items st hs :
  coherent parseMarkdown (markdownCache st) →
  let st' := foldl (draw_heading parseMarkdown) st hs in
  items st' = items st ++ ((λ h, (level h, parseMarkdown (heading h))) <$> hs)
  ∧ coherent parseMarkdown (markdownCache st').
Proof.
  revert st. induction hs as [|h hs IH]; intros st Hco; cbn [foldl].
  { by rewrite app_nil_r. }
  destruct (markdownCache st !! heading h) as [v|] eqn:Hlook.
  - rewrite (draw_heading_hit _ _ _ Hlook).
    destruct (IH {| markdownCache := markdownCache st;
                    items := items st ++ [(level h, v)];
                    parsed := parsed st |} Hco) as (Hitems & Hco').
    split; [|done]. rewrite Hitems. cbn. rewrite <- app_assoc.
    by rewrite (Hco _ _ Hlook).
  - rewrite (draw_heading_miss _ _ Hlook).
    match goal with |- context [foldl _ ?st1 hs] => destruct (IH st1) as (Hitems & Hco') end.
    { cbn. intros k v. destruct (decide (heading h = k)) as [<-|Hne].
      - rewrite lookup_insert_eq. by intros [= <-].
      - rewrite lookup_insert_ne by done. apply Hco. }
    split; [|done]. rewrite Hitems. cbn. by rewrite <- app_assoc.
Qed.

Lemma draw_cached st hs :
  (∀ h, h ∈ hs → is_Some (markdownCache st !! heading h)) →
  parsed (foldl (draw_heading parseMarkdown) st hs) = parsed st
  ∧ markdownCache (foldl (draw_heading parseMarkdown) st hs) = markdownCache st.
Proof.
  revert st. induction hs as [|h hs IH]; intros st Hall; cbn [foldl]; [done|].
  destruct (Hall h) as (v & Hlook); [left|].
  rewrite (draw_heading_hit _ _ _ Hlook).
  match goal with
  | |- context [foldl _ ?st1 hs] => destruct (IH st1) as (Hparsed & Hcache)
  end.
  { cbn. intros h' Hin. apply Hall. by right. }
  by rewrite Hparsed, Hcache.
Qed.

(** X14. In one run of the loop of [renderHeadings], from a cache whose
    texts are what [parseMarkdown] makes of their keys, every heading is
    shown with what [parseMarkdown] makes of its text, whether the text
    came from the cache or not, and the cache is left in the same state
    of agreement with [parseMarkdown]. *)
Theorem draw_shows_parsed (cache : gmap string string) (hs : list Heading) :
  coherent parseMarkdown cache →
  items (draw parseMarkdown cache hs)
  = (λ h, (level h, parseMarkdown (heading h))) <$> hs
  ∧ coherent parseMarkdown (markdownCache (draw parseMarkdown cache hs)).
Proof.
  intros Hco.
  apply (draw_items {| markdownCache := cache; items := []; parsed := [] |} hs Hco).
Qed.

(** X15. One run of the loop hands a text to [parseMarkdown] at most once,
    and never a text that the cache holds; no entry of the cache is
    removed or changed. *)
Theorem draw_parses_once (cache : gmap string string) (hs : list Heading) :
  NoDup (parsed (draw parseMarkdown cache hs))
  ∧ Forall (λ k, cache !! k = None) (parsed (draw parseMarkdown cache hs))
  ∧ cache ⊆ markdownCache (draw parseMarkdown cache hs).
Proof.
  destruct (draw_from {| markdownCache := cache; items := []; parsed := [] |} hs)
    as (Hsub & (new & Hnew & Hdup & Hfresh) & _).
  unfold draw. cbn in Hnew. rewrite Hnew.
  split; [done|]. split; [by apply Forall_forall|done].
Qed.

(** X16. After a run of the loop over some headings, a run over headings
    taken among them makes no call of [parseMarkdown] and leaves the
    cache as it is. *)
Theorem draw_again_cached (cache : gmap string string) (hs hs' : list Heading) :
  hs' ⊆ hs →
  let cache' := markdownCache (draw parseMarkdown cache hs) in
  parsed (draw parseMarkdown cache' hs') = []
  ∧ markdownCache (draw parseMarkdown cache' hs') = cache'.
Proof.
  intros Hincl cache'.
  apply (draw_cached {| markdownCache := cache'; items := []; parsed := [] |} hs').
  cbn. intros h Hh.
  destruct (draw_from {| markdownCache := cache; items := []; parsed := [] |} hs)
    as (_ & _ & Hall).
  by apply Hall, Hincl.
Qed.

End Cache.

Lemma draw_shows_parsed_witness :
  coherent (λ text, "<p>" +:+ text) ∅
  ∧ items (draw (λ text, "<p>" +:+ text) ∅ scenario)
    = (λ h, (level h, "<p>" +:+ heading h)) <$> scenario.
Proof.
  assert (Hco : coherent (λ text, "<p>" +:+ text) ∅) by (intros k v [=]).
  split; [exact Hco|].
  exact (proj1 (draw_shows_parsed (λ text, "<p>" +:+ text) ∅ scenario Hco)).
Defined.

Lemma draw_again_cached_witness :
  [Hdg 1 "B" 3; Hdg 1 "A" 0] ⊆ scenario
  ∧ parsed (draw id (markdownCache (draw id ∅ scenario))
              [Hdg 1 "B" 3; Hdg 1 "A" 0]) = [].
Proof.
  assert (Hincl : [Hdg 1 "B" 3; Hdg 1 "A" 0] ⊆ scenario).
  { intros h [->|[->|[]%elem_of_nil]%elem_of_cons]%elem_of_cons.
    - do 3 right. left.
    - left. }
  split; [exact Hincl|].
  exact (proj1 (draw_again_cached id ∅ scenario _ Hincl)).
Defined.

(** ** The map of the open views *)

Section MapFacts.
Context {V : Type}.
Implicit Types (m : list (string * V)) (k : string) (v : V).

Lemma get_set m k v k' :
  JSMap.get (JSMap.set m k v) k' = if decide (k' = k) then Some v else JSMap.get m k'.
Proof.
  induction m as [|[k0 v0] m IH]; cbn.
  - by destruct (decide (k' = k)).
  - destruct (decide (k = k0)) as [->|Hne]; cbn.
    + by destruct (decide (k' = k0)).
    + rewrite IH. destruct (decide (k' = k0)) as [->|?]; [|done].
      by rewrite decide_False.
Qed.

Lemma get_delete m k k' :
  JSMap.get (JSMap.delete m k) k' = if decide (k' = k) then None else JSMap.get m k'.
Proof.
  unfold JSMap.delete. induction m as [|[k0 v0] m IH].
  - cbn. by destruct (decide (k' = k)).
  - rewrite filter_cons. cbn [fst].
    destruct (decide (k0 ≠ k)) as [Hne|Heq%dec_stable]; cbn [JSMap.get].
    + rewrite IH. destruct (decide (k' = k0)) as [->|?]; [|done].
      by rewrite decide_False.
    + rewrite IH. subst k0. by destruct (decide (k' = k)).
Qed.

Lemma get_update (f : string → V → V) m k :
  JSMap.get (JSMap.update f m) k = f k <$> JSMap.get m k.
Proof.
  unfold JSMap.update. induction m as [|[k0 v0] m IH]; cbn; [done|].
  destruct (decide (k = k0)) as [->|?]; [done|]. apply IH.
Qed.

Lemma keys_update (f : string → V → V) m :
  JSMap.keys (JSMap.update f m) = JSMap.keys m.
Proof.
  unfold JSMap.keys, JSMap.update. rewrite <- list_fmap_compose.
  by apply list_fmap_ext.
Qed.

Lemma keys_get m k : k ∈ JSMap.keys m ↔ is_Some (JSMap.get m k).
Proof.
  unfold JSMap.keys. induction m as [|[k0 v0] m IH]; cbn.
  - rewrite elem_of_nil. split; [done|]. by intros [? ?].
  - rewrite elem_of_cons, IH. destruct (decide (k = k0)) as [->|?].
    + split; [by eexists|by left].
    + split; [by intros [?|?]|by right].
Qed.

Lemma has_get m k : JSMap.has m k = true ↔ is_Some (JSMap.get m k).
Proof.
  unfold JSMap.has. destruct (JSMap.get m k); split; try done.
Qed.

(** The loop that deletes the keys outside [valid]. *)
Lemma get_prune (valid : list string) m (ks : list string) k :
  JSMap.get
    (foldl (λ m id, if JSMap.set_has valid id then m else JSMap.delete m id) m ks) k
  = if decide (k ∈ ks ∧ k ∉ valid) then None else JSMap.get m k.
Proof.
  revert m. induction ks as [|k0 ks IH]; intros m; cbn [foldl].
  - rewrite decide_False; [done|]. intros [?%elem_of_nil _]. done.
  - rewrite IH. unfold JSMap.set_has.
    destruct (decide (k ∈ ks ∧ k ∉ valid)) as [[Hin Hout]|Hnot].
    + rewrite decide_True; [done|]. split; [by right|done].
    + destruct (bool_decide_reflect (k0 ∈ valid)) as [Hvalid|Hinvalid].
      * destruct (decide (k ∈ k0 :: ks ∧ k ∉ valid)) as [[Hin Hout]|?]; [|done].
        apply elem_of_cons in Hin as [->|Hin]; [done|]. by destruct Hnot.
      * rewrite get_delete. destruct (decide (k = k0)) as [->|Hne].
        -- rewrite decide_True; [done|]. split; [left|done].
        -- destruct (decide (k ∈ k0 :: ks ∧ k ∉ valid)) as [[Hin Hout]|?]; [|done].
           apply elem_of_cons in Hin as [->|Hin]; [done|]. by destruct Hnot.
Qed.

End MapFacts.

Section Views.
Implicit Types (m : list (string * Item.t)) (leaves : list Leaf.t) (k : string).
Implicit Types (validIds : list string).

Lemma set_add_elem_of validIds k k' :
  k' ∈ JSMap.set_add validIds k ↔ k' ∈ validIds ∨ k' = k.
Proof.
  unfold JSMap.set_add, JSMap.set_has.
  destruct (bool_decide_reflect (k ∈ validIds)) as [Hin|Hout].
  - split; [by left|]. by intros [?| ->].
  - rewrite elem_of_app, list_elem_of_singleton. done.
Qed.

(** The first loop of [checkFileResolveMap]. *)
Lemma check_leaves validIds m leaves :
  let st := foldl check_leaf (validIds, m) leaves in
  (∀ k, k ∈ st.1 ↔ k ∈ validIds ∨ open_view leaves k)
  ∧ (∀ k item, JSMap.get m k = Some item → JSMap.get st.2 k = Some item)
  ∧ (∀ leaf leaf_view file,
       leaf ∈ leaves → Leaf.id leaf ≠ EmptyString →
       Leaf.view leaf = Some leaf_view → getFile leaf_view = Some file →
       is_Some (JSMap.get st.2 (Leaf.id leaf))).
Proof.
  revert validIds m. induction leaves as [|leaf leaves IH]; intros validIds m.
  { cbn. split; [|split; [done|]].
    - intros k. split; [by left|]. intros [?|(leaf & ?%elem_of_nil & _)]; done.
    - by intros leaf ? ? ?%elem_of_nil. }
  cbn [foldl].
  destruct (check_leaf (validIds, m) leaf) as [validIds1 m1] eqn:Hstep.
  destruct (IH validIds1 m1) as (Hvalid & Hkeep & Hcover).
  assert (Hstep_valid : ∀ k, k ∈ validIds1
            ↔ k ∈ validIds ∨ (Leaf.id leaf = k ∧ k ≠ EmptyString
                               ∧ is_Some (Leaf.view leaf))).
  { intros k. unfold check_leaf in Hstep.
    destruct (Leaf.id leaf) as [|c rest] eqn:Hid.
    { injection Hstep as <- <-. split; [by left|]. by intros [?|(<- & ? & _)]. }
    destruct (Leaf.view leaf) as [leaf_view|] eqn:Hview.
    2:{ injection Hstep as <- <-. split; [by left|].
        by intros [?|(_ & _ & [? ?])]. }
    assert (validIds1 = JSMap.set_add validIds (String c rest)) as ->.
    { destruct (JSMap.has m (String c rest)); [by injection Hstep|].
      destruct (getFile leaf_view); by injection Hstep. }
    rewrite set_add_elem_of. split; intros [?|Hk]; auto.
    - right. by subst k.
    - right. by destruct Hk as (<- & _). }
  assert (Hstep_keep : ∀ k item, JSMap.get m k = Some item
                                 → JSMap.get m1 k = Some item).
  { intros k item Hget. unfold check_leaf in Hstep.
    destruct (Leaf.id leaf) as [|c rest] eqn:Hid; [by injection Hstep as <- <-|].
    destruct (Leaf.view leaf) as [leaf_view|]; [|by injection Hstep as <- <-].
    destruct (JSMap.has m (String c rest)) eqn:Hhas; [by injection Hstep as <- <-|].
    destruct (getFile leaf_view); [|by injection Hstep as <- <-].
    injection Hstep as <- <-. rewrite get_set.
    destruct (decide (k = String c rest)) as [->|?]; [|done].
    assert (JSMap.has m (String c rest) = true); [|congruence].
    apply has_get. by eexists. }
  assert (Hstep_cover : ∀ leaf_view file,
            Leaf.id leaf ≠ EmptyString → Leaf.view leaf = Some leaf_view →
            getFile leaf_view = Some file → is_Some (JSMap.get m1 (Leaf.id leaf))).
  { intros leaf_view file Hid Hview Hfile. unfold check_leaf in Hstep.
    destruct (Leaf.id leaf) as [|c rest]; [done|]. rewrite Hview, Hfile in Hstep.
    destruct (JSMap.has m (String c rest)) eqn:Hhas; injection Hstep as <- <-.
    - by apply has_get.
    - rewrite get_set, decide_True by done. by eexists. }
  split; [|split].
  - intros k. rewrite Hvalid, Hstep_valid. unfold open_view. split.
    + intros [[?|(Hid & Hne & Hview)]|(leaf' & Hin & ?)]; [by left|right..].
      * exists leaf. split; [left|done].
      * exists leaf'. split; [by right|done].
    + intros [?|(leaf' & Hin & Hid & Hne & Hview)]; [by left; left|].
      apply elem_of_cons in Hin as [->|Hin]; [by left; right|].
      right. by exists leaf'.
  - intros k item Hget. by apply Hkeep, Hstep_keep.
  - intros leaf' leaf_view file Hin Hid Hview Hfile.
    apply elem_of_cons in Hin as [->|Hin]; [|by eapply Hcover].
    destruct (Hstep_cover leaf_view file Hid Hview Hfile) as (item & Hitem).
    exists item. by apply Hkeep.
Qed.

Lemma check_get m leaves k :
  let st := foldl check_leaf ([], m) leaves in
  (k ∈ st.1 ↔ open_view leaves k)
  ∧ JSMap.get (checkFileResolveMap m leaves) k
    = if decide (k ∈ st.1) then JSMap.get st.2 k else None.
Proof.
  cbn. unfold checkFileResolveMap.
  destruct (check_leaves [] m leaves) as (Hvalid & _).
  destruct (foldl check_leaf ([], m) leaves) as [validIds m1]. cbn in *.
  split.
  { rewrite Hvalid. split; [|by right]. by intros [?%elem_of_nil|?]. }
  rewrite get_prune. destruct (JSMap.get m1 k) as [item|] eqn:Hget.
  - assert (Hkey : k ∈ JSMap.keys m1) by (apply keys_get; by eexists).
    destruct (decide (k ∈ validIds)) as [Hopen|Hclosed].
    + rewrite decide_False; [done|]. by intros [_ Hout].
    + by rewrite decide_True.
  - by repeat destruct (decide _).
Qed.

End Views.

(** X17. After [checkFileResolveMap], every id of [fileResolveMap] is the
    non-empty id of a leaf of the workspace that shows a [MarkdownView]:
    the entries of closed views are gone. *)
Theorem check_drops_closed_views (m : list (string * Item.t))
    (leaves : list Leaf.t) (k : string) :
  k ∈ JSMap.keys (checkFileResolveMap m leaves) → open_view leaves k.
Proof.
  intros (item & Hget)%keys_get.
  destruct (check_get m leaves k) as (Hopen & Heq). rewrite Heq in Hget.
  apply Hopen. by destruct (decide _).
Qed.

(** X18. After [checkFileResolveMap], every leaf with a non-empty id that
    shows a [MarkdownView] with a file has an entry in [fileResolveMap]. *)
Theorem check_covers_open_files (m : list (string * Item.t))
    (leaves : list Leaf.t) (leaf : Leaf.t) (leaf_view : LeafView) (file : TFile) :
  leaf ∈ leaves → Leaf.id leaf ≠ EmptyString →
  Leaf.view leaf = Some leaf_view → getFile leaf_view = Some file →
  Leaf.id leaf ∈ JSMap.keys (checkFileResolveMap m leaves).
Proof.
  intros Hin Hid Hview Hfile. apply keys_get.
  destruct (check_get m leaves (Leaf.id leaf)) as (Hopen & ->).
  rewrite decide_True.
  - destruct (check_leaves [] m leaves) as (_ & _ & Hcover). by eapply Hcover.
  - apply Hopen. exists leaf. by rewrite Hview.
Qed.

(** X19. [checkFileResolveMap] leaves the entry of a view that is still
    open as it was, its flag [resolve] included. *)
Theorem check_keeps_open_entries (m : list (string * Item.t))
    (leaves : list Leaf.t) (k : string) (item : Item.t) :
  JSMap.get m k = Some item → open_view leaves k →
  JSMap.get (checkFileResolveMap m leaves) k = Some item.
Proof.
  intros Hget Hopen'. destruct (check_get m leaves k) as (Hopen & ->).
  rewrite decide_True by by apply Hopen.
  destruct (check_leaves [] m leaves) as (_ & Hkeep & _). by apply Hkeep.
Qed.

Lemma open_leaf_open : open_view workspace_leaves "a".
Proof. exists open_leaf. split; [left|]. split; [done|]. split; [done|]. by eexists. Defined.

Lemma check_drops_closed_views_witness :
  "a" ∈ JSMap.keys (checkFileResolveMap stale_map workspace_leaves)
  ∧ open_view workspace_leaves "a".
Proof.
  assert (Hkey : "a" ∈ JSMap.keys (checkFileResolveMap stale_map workspace_leaves))
    by (vm_compute; left).
  split; [exact Hkey|].
  exact (check_drops_closed_views stale_map workspace_leaves "a" Hkey).
Defined.

Lemma check_covers_open_files_witness :
  open_leaf ∈ workspace_leaves ∧ Leaf.id open_leaf ≠ EmptyString
  ∧ Leaf.id open_leaf ∈ JSMap.keys (checkFileResolveMap [] workspace_leaves).
Proof.
  assert (Hin : open_leaf ∈ workspace_leaves) by left.
  assert (Hid : Leaf.id open_leaf ≠ EmptyString) by done.
  split; [exact Hin|]. split; [exact Hid|].
  exact (check_covers_open_files [] workspace_leaves open_leaf _ note_file
           Hin Hid eq_refl eq_refl).
Defined.

Lemma check_keeps_open_entries_witness :
  JSMap.get stale_map "a" = Some waiting_item ∧ open_view workspace_leaves "a"
  ∧ JSMap.get (checkFileResolveMap stale_map workspace_leaves) "a"
    = Some waiting_item.
Proof.
  split; [reflexivity|]. split; [exact open_leaf_open|].
  exact (check_keeps_open_entries stale_map workspace_leaves "a" waiting_item
           eq_refl open_leaf_open).
Defined.

(** ** The flag [resolve] *)

Section Resolve.
Variable isMarkdownFile : TFile → bool.
Implicit Types (m : list (string * Item.t)) (file : TFile) (item : Item.t).

Lemma with_resolve_same item : with_resolve (Item.resolve item) item = item.
Proof. by destruct item. Qed.

Lemma collect_ids (p : Item.t → bool) m (ids : list string) :
  foldl (λ ids (entry : string * Item.t),
           if p entry.2 then JS.push ids entry.1 else ids) ids m
  = ids ++ (filter (λ entry : string * Item.t, p entry.2 = true) m).*1.
Proof.
  revert ids. induction m as [|[k item] m IH]; intros ids; cbn [foldl].
  - by rewrite app_nil_r.
  - rewrite IH, filter_cons. cbn [fst snd]. destruct (p item) eqn:Hp.
    + rewrite decide_True by done. unfold JS.push. cbn. by rewrite <- app_assoc.
    + by rewrite decide_False by done.
Qed.

Lemma update_ext (f g : string → Item.t → Item.t) m :
  (∀ k item, f k item = g k item) →
  JSMap.update f m = JSMap.update g m.
Proof.
  intros Hfg. unfold JSMap.update. apply list_fmap_ext.
  intros i [k item] _. cbn. by rewrite Hfg.
Qed.

Lemma update_update (f g : string → Item.t → Item.t) m :
  JSMap.update f (JSMap.update g m) = JSMap.update (λ k item, f k (g k item)) m.
Proof. unfold JSMap.update. by rewrite <- list_fmap_compose. Qed.

Lemma update_same m : JSMap.update (λ _ item, item) m = m.
Proof.
  unfold JSMap.update. rewrite <- (list_fmap_id m) at 2.
  apply list_fmap_ext. by intros i [k item].
Qed.

(** X20. After an [editor-change] on a markdown file, the next [resolve]
    of that file passes to [updateHeadings] the ids of all the entries
    whose file has its path, in the order of the map, and leaves these
    entries with [resolve] true and the others as they were. *)
Theorem resolve_after_change m file :
  isMarkdownFile file = true →
  on_resolve isMarkdownFile (on_editor_change isMarkdownFile m (Some file)) file
  = (JSMap.update
       (λ _ item, if decide (path (Item.file item) = path file)
                  then with_resolve true item else item) m,
     (filter (λ entry : string * Item.t,
                path (Item.file entry.2) = path file) m).*1).
Proof.
  intros Hmd. unfold on_resolve, on_editor_change. rewrite Hmd. f_equal.
  - rewrite update_update. apply update_ext. intros k item.
    destruct (decide (path (Item.file item) = path file)) as [Heq|Hne]; cbn.
    + by rewrite bool_decide_eq_true_2.
    + by rewrite bool_decide_eq_false_2.
  - etransitivity;
      [exact (collect_ids (λ item, bool_decide (path (Item.file item) = path file)
                                   && negb (Item.resolve item)) _ [])|].
    cbn [app]. unfold JSMap.update.
    induction m as [|[k item] m IH]; [done|].
    rewrite fmap_cons, !filter_cons. cbn [fst snd].
    destruct (decide (path (Item.file item) = path file)) as [Heq|Hne]; cbn.
    + rewrite bool_decide_eq_true_2 by done. cbn.
      rewrite decide_True by done. cbn. by rewrite IH.
    + rewrite bool_decide_eq_false_2 by done. cbn.
      by rewrite decide_False by done.
Qed.

(** X21. A second [resolve] of the same file passes no id to
    [updateHeadings] and leaves the map as the first one left it. *)
Theorem resolve_twice m file :
  on_resolve isMarkdownFile (on_resolve isMarkdownFile m file).1 file
  = ((on_resolve isMarkdownFile m file).1, []).
Proof.
  unfold on_resolve. destruct (isMarkdownFile file) eqn:Hmd; cbn [fst]; [|done].
  assert (Hdone : ∀ item,
    bool_decide (path (Item.file
      (if bool_decide (path (Item.file item) = path file) && negb (Item.resolve item)
       then with_resolve true item else item)) = path file)
    && negb (Item.resolve
      (if bool_decide (path (Item.file item) = path file) && negb (Item.resolve item)
       then with_resolve true item else item)) = false).
  { intros item.
    destruct (bool_decide (path (Item.file item) = path file)) eqn:Hpath;
      destruct (Item.resolve item) eqn:Hres; cbn; by rewrite ?Hpath, ?Hres,
        ?andb_false_r. }
  f_equal.
  - rewrite update_update. apply update_ext. intros k item.
    pose proof (Hdone item) as Hitem. unfold with_resolve in Hitem.
    by rewrite Hitem.
  - etransitivity;
      [exact (collect_ids (λ item, bool_decide (path (Item.file item) = path file)
                                   && negb (Item.resolve item)) _ [])|].
    cbn [app]. unfold JSMap.update.
    induction m as [|[k item] m IH]; [done|].
    rewrite fmap_cons, filter_cons. cbn [fst snd].
    pose proof (Hdone item) as Hitem. unfold with_resolve in Hitem.
    rewrite decide_False; [done|]. by rewrite Hitem.
Qed.

End Resolve.

Lemma resolve_after_change_witness :
  (λ _ : TFile, true) note_file = true
  ∧ (on_resolve (λ _, true)
       (on_editor_change (λ _, true) stale_map (Some note_file)) note_file).2
    = ["z"; "a"].
Proof.
  split; [reflexivity|].
  by rewrite (resolve_after_change (λ _, true) stale_map note_file eq_refl).
Defined.

(** X22. With a positive [max], [renderHeadings] shows at most [max]
    headings, and they are the last ones of what it shows without a
    limit. *)
Theorem finalHeadings_limit (settings : ISetting) (fuel : nat)
    (headings final : list Heading) (scrollTop : Z) :
  (0 < max settings)%Z →
  finalHeadings settings fuel headings scrollTop = Returned final →
  length final ≤ Z.to_nat (max settings)
  ∧ ∃ all,
      finalHeadings {| mode := mode settings; max := 0 |} fuel headings scrollTop
      = Returned all
      ∧ final `suffix_of` all.
Proof.
  intros Hmax. unfold finalHeadings. cbn [mode max].
  destruct (match validHeadings headings scrollTop with
            | [] => _ | _ => _ end) as [all|all]; [|done].
  intros [= <-]. rewrite truncate_length by done. split; [lia|].
  exists all. split; [done|]. rewrite truncate_positive by done.
  apply suffix_drop.
Qed.

Lemma finalHeadings_limit_witness :
  (0 < 1)%Z
  ∧ finalHeadings {| mode := default; max := 1 |} 5 scenario 4
    = Returned [Hdg 1 "B" 3]
  ∧ length [Hdg 1 "B" 3] ≤ Z.to_nat 1.
Proof.
  split; [lia|]. split; [reflexivity|].
  exact (proj1 (finalHeadings_limit {| mode := default; max := 1 |} 5 scenario
                  [Hdg 1 "B" 3] 4 ltac:(cbn; lia) eq_refl)).
Defined.

(** X23. With a negative [max], [renderHeadings] drops the first [- max]
    headings of what it shows without a limit, and shows the rest. *)
Theorem finalHeadings_negative_max (settings : ISetting) (fuel : nat)
    (headings final : list Heading) (scrollTop : Z) :
  (max settings < 0)%Z →
  finalHeadings settings fuel headings scrollTop = Returned final →
  ∃ all,
    finalHeadings {| mode := mode settings; max := 0 |} fuel headings scrollTop
    = Returned all
    ∧ final = drop (Z.to_nat (- max settings)) all.
Proof.
  intros Hmax. unfold finalHeadings. cbn [mode max].
  destruct (match validHeadings headings scrollTop with
            | [] => _ | _ => _ end) as [all|all]; [|done].
  intros [= <-]. exists all. split; [done|]. by apply truncate_negative.
Qed.

Lemma finalHeadings_negative_max_witness :
  (-1 < 0)%Z
  ∧ finalHeadings {| mode := default; max := -1 |} 5 scenario 4
    = Returned [Hdg 1 "B" 3]
  ∧ ∃ all,
      finalHeadings {| mode := default; max := 0 |} 5 scenario 4 = Returned all
      ∧ [Hdg 1 "B" 3] = drop (Z.to_nat (- -1)) all.
Proof.
  split; [lia|]. split; [reflexivity|].
  exact (finalHeadings_negative_max {| mode := default; max := -1 |} 5 scenario
           [Hdg 1 "B" 3] 4 ltac:(cbn; lia) eq_refl).
Defined.

(** X24. When a markdown file is opened in the active view and the leaf of
    that view is among the leaves of the workspace, [fileResolveMap] then
    binds the id of the view to that file, with [resolve] true, whatever
    entry the id had before; the id is the one passed to
    [updateHeadings]. *)
Theorem file_open_binds (isMarkdownFile : TFile → bool)
    (m : list (string * Item.t)) (leaves : list Leaf.t) (file : TFile)
    (k : string) (active : LeafView) :
  isMarkdownFile file = true → open_view leaves k →
  let after := on_file_open isMarkdownFile m leaves (Some file) (Some (k, active)) in
  JSMap.get after.1 k
  = Some {| Item.resolve := true; Item.file := file;
            Item.container := contentEl active;
            Item.view := view_object active |}
  ∧ after.2 = [k].
Proof.
  intros Hmd Hopen. cbn. unfold on_file_open. rewrite Hmd.
  destruct k as [|c rest]; [by destruct Hopen as (? & _ & _ & ? & _)|].
  cbn [fst snd]. split; [|done].
  destruct (check_get (JSMap.set m (String c rest)
              {| Item.resolve := true; Item.file := file;
                 Item.container := contentEl active;
                 Item.view := view_object active |}) leaves (String c rest))
    as (Hvalid & ->).
  rewrite decide_True by by apply Hvalid.
  match goal with
  | |- context [foldl check_leaf ([], ?m1) leaves] =>
      destruct (check_leaves [] m1 leaves) as (_ & Hkeep & _)
  end.
  apply Hkeep. by rewrite get_set, decide_True.
Qed.

Lemma file_open_binds_witness :
  (λ _ : TFile, true) note_file = true ∧ open_view workspace_leaves "a"
  ∧ JSMap.get
      (on_file_open (λ _, true) stale_map workspace_leaves (Some note_file)
         (Some ("a", {| getFile := Some note_file; contentEl := 1;
                        view_object := 10 |}))).1 "a"
    = Some {| Item.resolve := true; Item.file := note_file;
              Item.container := 1; Item.view := 10 |}.
Proof.
  split; [reflexivity|]. split; [exact open_leaf_open|].
  exact (proj1 (file_open_binds (λ _, true) stale_map workspace_leaves note_file "a"
                  {| getFile := Some note_file; contentEl := 1; view_object := 10 |}
                  eq_refl open_leaf_open)).
Defined.
